(** * forward-bot: a shallow embedding of the forwarding engine

    The development follows [message_forwarder.py] (class [MessageForwarder])
    and [core/config_manager.py] (class [ConfigManager]).

    - Python dictionaries are [gmap]s, the set of scheduled groups is a
      [gset]; a [defaultdict] lookup that is missing reads as its default.
    - Coroutines are run to completion against a deterministic transport
      stub; every observable effect (an awaited transport call, a sleep, a
      log record) is appended to a trace.
    - Exceptions are values of type [exn]; a call either returns or raises
      ([completion]). *)

From stdpp Require Import gmap strings list fin_maps sorting.

Set Default Proof Using "Type".
Set Warnings "-clear-no-such-hyp".  (* noise from stdpp solvers *)

(** ** Python values shared by all components *)

(** Exceptions that reach the forwarder.  Every one of them is an instance
    of [Exception]; [str] is the text Python's [str(e)] gives. *)
Inductive exn : Type :=
| RetryAfter (retry_after : Z) (msg : string)   (* telegram.error.RetryAfter *)
| TimeoutError (msg : string)                   (* asyncio.TimeoutError *)
| Exception (name : string) (msg : string).     (* any other class, by __name__ *)

Definition str (e : exn) : string :=
  match e with
  | RetryAfter _ msg => msg
  | TimeoutError msg => msg
  | Exception _ msg => msg
  end.

Definition ValueError (msg : string) : exn := Exception "ValueError" msg.

(** A bare [raise] executed while no exception is being handled. *)
Definition no_active_exception : exn :=
  Exception "RuntimeError" "No active exception to reraise".

Inductive completion (A : Type) : Type :=
| Return (v : A)
| Raise (e : exn).
Arguments Return {A} v.
Arguments Raise {A} e.

(** [needle in haystack] on Python strings. *)
Fixpoint contains (needle haystack : string) : bool :=
  if String.prefix needle haystack then true
  else match haystack with
       | EmptyString => false
       | String _ rest => contains needle rest
       end.

(** Truthiness of an optional string: [None] and the empty string are falsy. *)
Definition truthy_str (o : option string) : bool :=
  match o with
  | Some s => negb (String.eqb s EmptyString)
  | None => false
  end.

(** Truthiness of an optional integer: [None] and [0] are falsy. *)
Definition truthy_int (o : option Z) : bool :=
  match o with
  | Some z => negb (z =? 0)%Z
  | None => false
  end.

(** ** Constants of [message_forwarder.py] *)

Definition MEDIA_GROUP_TIMEOUT : Z := 2.
Definition MAX_RETRIES : nat := 3.
Definition RETRY_DELAY : Z := 1.
Definition MAX_MEDIA_GROUP_SIZE : nat := 10.

(** ** ConfigManager *)

Record Config : Type := {
  source_id : option Z;
  destination_id : option Z
}.

(** [isinstance(v, int) and v < 0] on a value of type [Optional[int]]. *)
Definition is_negative_int (v : option Z) : bool :=
  match v with
  | Some z => bool_decide (z < 0)%Z
  | None => false
  end.

Definition validate_config (config : Config) : completion unit :=
  if bool_decide (source_id config = destination_id config) then
    Raise (ValueError "Source and destination channels cannot be the same")
  else if negb (is_negative_int (source_id config)) then
    Raise (ValueError "Invalid source channel ID format")
  else if negb (is_negative_int (destination_id config)) then
    Raise (ValueError "Invalid destination channel ID format")
  else Return tt.

(** The reasons the specification names for a failed validation, and the
    reason each of the three messages of [validate_config] stands for. *)
Inductive ConfigError : Type :=
| MissingSource
| MissingDestination
| SourceEqualsDestination
| MalformedSource
| MalformedDestination.

Definition reason_of_message (msg : string) : option ConfigError :=
  if String.eqb msg "Source and destination channels cannot be the same"
  then Some SourceEqualsDestination
  else if String.eqb msg "Invalid source channel ID format"
  then Some MalformedSource
  else if String.eqb msg "Invalid destination channel ID format"
  then Some MalformedDestination
  else None.

Definition validate_reason (config : Config) : option ConfigError :=
  match validate_config config with
  | Return _ => None
  | Raise e => reason_of_message (str e)
  end.

(** The validation as the specification words it: an unset identifier is
    reported as missing, equal identifiers as equal, and an identifier that
    is not a negative integer as malformed. *)
Definition spec_validate (config : Config) : option ConfigError :=
  match source_id config, destination_id config with
  | None, _ => Some MissingSource
  | Some _, None => Some MissingDestination
  | Some s, Some d =>
      if bool_decide (s = d) then Some SourceEqualsDestination
      else if negb (bool_decide (s < 0)%Z) then Some MalformedSource
      else if negb (bool_decide (d < 0)%Z) then Some MalformedDestination
      else None
  end.

(** ** Telegram objects, as far as the forwarder reads them *)

Module PhotoSize.
Record t : Type := { file_id : string }.
End PhotoSize.

Module Video.
Record t : Type := { file_id : string; duration : Z; width : Z; height : Z }.
End Video.

Module Document.
Record t : Type := { file_id : string; file_name : option string }.
End Document.

Module Audio.
Record t : Type := {
  file_id : string;
  duration : Z;
  performer : option string;
  title : option string
}.
End Audio.

Module Animation.
Record t : Type := { file_id : string }.
End Animation.

Record MessageEntity : Type := {
  entity_type : string;
  entity_offset : Z;
  entity_length : Z
}.

(** [date] is the server timestamp in whole seconds ([msg.date.timestamp()]
    is that number as a float, which is exact and order preserving);
    [photo] is the tuple of sizes, empty when the message has no photo;
    [caption_entities] is the tuple of entities, empty when there is none. *)
Record Message : Type := {
  message_id : Z;
  chat_id : Z;
  date : Z;
  media_group_id : option string;
  caption : option string;
  caption_entities : list MessageEntity;
  photo : list PhotoSize.t;
  video : option Video.t;
  document : option Document.t;
  audio : option Audio.t;
  animation : option Animation.t
}.

Record Update : Type := {
  effective_chat_id : Z;
  effective_message : Message
}.

Inductive InputMedia : Type :=
| InputMediaPhoto (media : string) (caption : option string)
    (caption_entities : option (list MessageEntity))
| InputMediaVideo (media : string) (caption : option string)
    (caption_entities : option (list MessageEntity)) (duration width height : Z)
| InputMediaDocument (media : string) (caption : option string)
    (caption_entities : option (list MessageEntity)) (filename : option string)
| InputMediaAudio (media : string) (caption : option string)
    (caption_entities : option (list MessageEntity)) (duration : Z)
    (performer title : option string).

Definition media_of (m : InputMedia) : string :=
  match m with
  | InputMediaPhoto f _ _ => f
  | InputMediaVideo f _ _ _ _ _ => f
  | InputMediaDocument f _ _ _ => f
  | InputMediaAudio f _ _ _ _ _ => f
  end.

Definition caption_of (m : InputMedia) : option string :=
  match m with
  | InputMediaPhoto _ c _ => c
  | InputMediaVideo _ c _ _ _ _ => c
  | InputMediaDocument _ c _ _ => c
  | InputMediaAudio _ c _ _ _ _ => c
  end.

Definition caption_entities_of (m : InputMedia) : option (list MessageEntity) :=
  match m with
  | InputMediaPhoto _ _ e => e
  | InputMediaVideo _ _ e _ _ _ => e
  | InputMediaDocument _ _ e _ => e
  | InputMediaAudio _ _ e _ _ _ => e
  end.

(** ** Effects: transport calls, sleeps and log records *)

Inductive transport_call : Type :=
| SendMediaGroup (chat : option Z) (media : list InputMedia)
| CopyMessage (chat : option Z) (from_chat_id : Z) (msg_id : Z).

Inductive level : Type := ERROR | WARNING | INFO.

Inductive log_record : Type :=
| FailedAfterAttempts (attempts : nat) (errors : gmap string nat)
| MixedMediaTypes (group : string) (media_types : gset string)
| ForwardedMediaGroup (group : string) (items : nat)
| SendAttemptFailed (attempt total : nat) (error : string)
| FailedToForwardMediaGroup (group : string) (total : nat)
| ErrorForwardingMessage (msg_id : Z) (error : string)
| DestinationNotSet
| InvalidConfiguration (error : string)
| ProcessingImmediately (group : string)
| TimerReset (group : string) (collected : nat).

(** [Await call timeout]: the coroutine is suspended on a transport call,
    under [asyncio.wait_for] when [timeout] is given. *)
Inductive event : Type :=
| Await (call : transport_call) (timeout : option Z)
| Sleep (seconds : Z)
| Log (lvl : level) (record : log_record).

(** The transport stub: the outcome of a call is a function of its
    arguments and of the index of the attempt inside the retry loop that
    issues it. *)
Record Transport : Type := {
  send_media_group : option Z -> list InputMedia -> nat -> completion (list Z);
  copy_message : option Z -> Z -> Z -> nat -> completion Z
}.

(** ** Retry executor: [MessageForwarder.retry_operation] *)

(** [retry_errors[key] += 1] on a [defaultdict(int)]. *)
Definition tally_incr (key : string) (retry_errors : gmap string nat) : gmap string nat :=
  <[key := S (default 0 (retry_errors !! key))]> retry_errors.

Definition progressive_timeout (attempt : nat) : Z := 30 + 10 * Z.of_nat attempt.

(** The [finally] clause: on the last attempt, with a non-empty tally, it
    logs and executes a bare [raise]. *)
Definition finally_raises (attempt : nat) (retry_errors : gmap string nat) : bool :=
  bool_decide (attempt = MAX_RETRIES - 1) && negb (bool_decide (retry_errors = ∅)).

(** The [except] clauses: the updated tally and the sleep that follows. *)
Definition on_failure (attempt : nat) (e : exn) (retry_errors : gmap string nat)
  : gmap string nat * Z :=
  match e with
  | RetryAfter n _ =>
      (tally_incr "rate_limit" retry_errors, n * (Z.of_nat attempt + 1))%Z
  | TimeoutError _ =>
      (tally_incr "timeout" retry_errors, RETRY_DELAY * 2 ^ Z.of_nat attempt)%Z
  | Exception name _ =>
      (tally_incr name retry_errors, RETRY_DELAY * 2 ^ Z.of_nat attempt)%Z
  end.

(** The sleep that follows a failed attempt; it does not depend on the
    tally. *)
Definition retry_delay (attempt : nat) (e : exn) : Z := (on_failure attempt e ∅).2.

(** The key under which a failure is counted, and the tally that a run of
    failures leaves behind. *)
Definition failure_kind (e : exn) : string :=
  match e with
  | RetryAfter _ _ => "rate_limit"
  | TimeoutError _ => "timeout"
  | Exception name _ => name
  end.

Definition is_rate_limit (e : exn) : bool :=
  match e with RetryAfter _ _ => true | _ => false end.

Definition tally (failures : list exn) : gmap string nat :=
  foldl (λ errors e, tally_incr (failure_kind e) errors) ∅ failures.

Definition is_await (ev : event) : bool :=
  match ev with Await _ _ => true | _ => false end.

Definition is_sleep (ev : event) : bool :=
  match ev with Sleep _ => true | _ => false end.

Definition is_tally_log (ev : event) : bool :=
  match ev with Log _ (FailedAfterAttempts _ _) => true | _ => false end.

(** The loop body over the remaining attempts of [range(MAX_RETRIES)].
    Falling off the end of the loop returns [None]. *)
Fixpoint retry_loop {R : Type} (call : transport_call) (operation : nat -> completion R)
    (attempts : list nat) (retry_errors : gmap string nat)
  : list event * completion (option R) :=
  match attempts with
  | [] => ([], Return None)
  | attempt :: rest =>
      let awaited := Await call (Some (progressive_timeout attempt)) in
      match operation attempt with
      | Return r =>
          if finally_raises attempt retry_errors then
            ([awaited; Log ERROR (FailedAfterAttempts MAX_RETRIES retry_errors)],
             Raise no_active_exception)
          else ([awaited], Return (Some r))
      | Raise e =>
          let '(retry_errors', delay) := on_failure attempt e retry_errors in
          if finally_raises attempt retry_errors' then
            ([awaited; Sleep delay;
              Log ERROR (FailedAfterAttempts MAX_RETRIES retry_errors')],
             Raise no_active_exception)
          else
            let '(evs, c) := retry_loop call operation rest retry_errors' in
            (awaited :: Sleep delay :: evs, c)
      end
  end.

Definition retry_operation {R : Type} (call : transport_call)
    (operation : nat -> completion R) : list event * completion (option R) :=
  retry_loop call operation (seq 0 MAX_RETRIES) ∅.

(** ** The inline retry loop of [process_media_group] (the batch path) *)

Definition batch_delay (attempt : nat) (e : exn) : Z :=
  let delay := (RETRY_DELAY * 2 ^ Z.of_nat attempt)%Z in
  if contains "Timed out" (str e) then (delay * 2)%Z else delay.

Fixpoint send_loop {R : Type} (group : string) (call : transport_call) (items : nat)
    (operation : nat -> completion R) (attempts : list nat)
  : list event * completion unit :=
  match attempts with
  | [] => ([], Return tt)
  | attempt :: rest =>
      let awaited := Await call None in
      match operation attempt with
      | Return _ =>
          ([awaited; Log INFO (ForwardedMediaGroup group items)], Return tt)
      | Raise e =>
          let failed := Log ERROR (SendAttemptFailed (attempt + 1) MAX_RETRIES (str e)) in
          if bool_decide (attempt < MAX_RETRIES - 1) then
            let '(evs, c) := send_loop group call items operation rest in
            (awaited :: failed :: Sleep (batch_delay attempt e) :: evs, c)
          else
            let '(evs, c) := send_loop group call items operation rest in
            (awaited :: failed ::
               Log ERROR (FailedToForwardMediaGroup group MAX_RETRIES) :: evs, c)
      end
  end.

(** ** Batch canonicalizer: the pure part of [process_media_group] *)

(** [get_media_type]: the first truthy attribute among photo, video,
    document and audio. *)
Definition get_media_type (msg : Message) : option string :=
  match photo msg with
  | _ :: _ => Some "photo"
  | [] =>
      match video msg with
      | Some _ => Some "video"
      | None =>
          match document msg with
          | Some _ => Some "document"
          | None =>
              match audio msg with
              | Some _ => Some "audio"
              | None => None
              end
          end
      end
  end.

(** The [file_id] the duplicate check reads: [msg.photo[-1].file_id] for a
    photo, the attribute's own [file_id] otherwise; a message without a
    media type is skipped. *)
Definition file_id_of (msg : Message) : option string :=
  match get_media_type msg with
  | None => None
  | Some _ =>
      match last (photo msg) with
      | Some p => Some (PhotoSize.file_id p)
      | None =>
          match video msg with
          | Some v => Some (Video.file_id v)
          | None =>
              match document msg with
              | Some d => Some (Document.file_id d)
              | None =>
                  match audio msg with
                  | Some a => Some (Audio.file_id a)
                  | None => None
                  end
              end
          end
      end
  end.

(** The key of [messages.sort]: [(msg.date.timestamp(), msg.message_id)],
    compared as Python compares tuples. *)
Definition sort_key (msg : Message) : Z * Z := (date msg, message_id msg).

Definition key_lt (a b : Z * Z) : bool :=
  (a.1 <? b.1)%Z || ((a.1 =? b.1)%Z && (a.2 <? b.2)%Z).

Definition key_le (a b : Z * Z) : Prop :=
  (a.1 < b.1)%Z ∨ (a.1 = b.1 ∧ (a.2 ≤ b.2)%Z).

Definition msg_le (a b : Message) : Prop := key_le (sort_key a) (sort_key b).

(** [list.sort] is a stable sort; stable insertion computes the same list. *)
Fixpoint insert_by_key (x : Message) (l : list Message) : list Message :=
  match l with
  | [] => [x]
  | y :: rest =>
      if key_lt (sort_key y) (sort_key x) then y :: insert_by_key x rest
      else x :: y :: rest
  end.

Definition sort_messages (messages : list Message) : list Message :=
  foldr insert_by_key [] messages.

(** The set comprehension of media types, with [None] discarded. *)
Definition media_types_of (messages : list Message) : gset string :=
  list_to_set (omap get_media_type messages).

(** The loop that fills [unique_messages], given the [seen] set so far. *)
Fixpoint unique_from (seen : gset string) (messages : list Message) : list Message :=
  match messages with
  | [] => []
  | msg :: rest =>
      match file_id_of msg with
      | Some fid =>
          if bool_decide (fid ∈ seen) then unique_from seen rest
          else msg :: unique_from ({[fid]} ∪ seen) rest
      | None => unique_from seen rest
      end
  end.

Definition unique_messages (sorted : list Message) : list Message :=
  unique_from ∅ sorted.

(** [next((msg.caption for msg in unique_messages if msg.caption), None)] *)
Fixpoint group_caption (unique : list Message) : option string :=
  match unique with
  | [] => None
  | msg :: rest =>
      if truthy_str (caption msg) then caption msg else group_caption rest
  end.

(** One iteration of the materialisation loop at index [i]; a message
    with none of the four attributes appends nothing. *)
Definition input_media_at (group_cap : option string) (i : nat) (msg : Message)
  : option InputMedia :=
  let cap := if bool_decide (i = 0) then group_cap else None in
  let ents := if truthy_str cap then Some (caption_entities msg) else None in
  match last (photo msg) with
  | Some p => Some (InputMediaPhoto (PhotoSize.file_id p) cap ents)
  | None =>
      match video msg with
      | Some v =>
          Some (InputMediaVideo (Video.file_id v) cap ents
                  (Video.duration v) (Video.width v) (Video.height v))
      | None =>
          match document msg with
          | Some d =>
              Some (InputMediaDocument (Document.file_id d) cap ents
                      (Document.file_name d))
          | None =>
              match audio msg with
              | Some a =>
                  Some (InputMediaAudio (Audio.file_id a) cap ents
                          (Audio.duration a) (Audio.performer a) (Audio.title a))
              | None => None
              end
          end
      end
  end.

Fixpoint media_from (group_cap : option string) (i : nat) (unique : list Message)
  : list InputMedia :=
  match unique with
  | [] => []
  | msg :: rest =>
      match input_media_at group_cap i msg with
      | Some m => m :: media_from group_cap (S i) rest
      | None => media_from group_cap (S i) rest
      end
  end.

(** The deduplicated messages of a buffered group, in sorted order. *)
Definition canonical_messages (messages : list Message) : list Message :=
  unique_messages (sort_messages messages).

(** The batch handed to [send_media_group]. *)
Definition canonical_batch (messages : list Message) : list InputMedia :=
  let unique := canonical_messages messages in
  media_from (group_caption unique) 0 unique.

(** [get_media_input], used for a media message outside any group. *)
Definition get_media_input (message : Message) : option InputMedia :=
  match photo message with
  | _ :: _ =>
      match last (photo message) with
      | Some p => Some (InputMediaPhoto (PhotoSize.file_id p) (caption message) None)
      | None => None
      end
  | [] =>
      match video message with
      | Some v =>
          Some (InputMediaVideo (Video.file_id v) (caption message) None
                  (Video.duration v) (Video.width v) (Video.height v))
      | None =>
          match document message with
          | Some d =>
              Some (InputMediaDocument (Document.file_id d) (caption message) None
                      (Document.file_name d))
          | None =>
              match audio message with
              | Some a =>
                  Some (InputMediaAudio (Audio.file_id a) (caption message) None
                          (Audio.duration a) (Audio.performer a) (Audio.title a))
              | None => None
              end
          end
      end
  end.

(** ** The forwarder's mutable state *)

(** The three containers of [MessageForwarder.__init__], the configuration
    held by its [config_manager], and the names of the pending one-shot
    jobs of [context.job_queue] (each job calls [process_media_group] for
    the group it is named after). *)
Record Forwarder : Type := {
  media_groups : gmap string (list Message);
  media_group_counts : gmap string nat;
  scheduled_media_groups : gset string;
  config : Config;
  job_queue : list string
}.

Definition init (c : Config) : Forwarder :=
  {| media_groups := ∅; media_group_counts := ∅; scheduled_media_groups := ∅;
     config := c; job_queue := [] |}.

(** An effect together with the forwarder state that any other callback
    would find while the coroutine is suspended on it. *)
Definition observation : Type := Forwarder * event.

Definition stamp (fw : Forwarder) (evs : list event) : list observation :=
  map (pair fw) evs.

(** ** Flush: [MessageForwarder.process_media_group] *)

(** Lines 120-122: the two [pop]s and the [discard]. *)
Definition pop_group (group : string) (fw : Forwarder) : list Message * Forwarder :=
  (default [] (media_groups fw !! group),
   {| media_groups := delete group (media_groups fw);
      media_group_counts := delete group (media_group_counts fw);
      scheduled_media_groups := scheduled_media_groups fw ∖ {[group]};
      config := config fw;
      job_queue := job_queue fw |}).

(** Lines 131-135: the consistency check only logs. *)
Definition flush_warning (group : string) (sorted : list Message) : list event :=
  let media_types := media_types_of sorted in
  if bool_decide (1 < size media_types)
  then [Log WARNING (MixedMediaTypes group media_types)] else [].

(** Every caller passes the group identifier (the handler directly, a job
    through its closure), so the [media_group_id is None] branch is left
    out.  The containers are changed by [pop_group] only, before the first
    effect; every effect is stamped with the state after it. *)
Definition process_media_group (tr : Transport) (group : string) (fw : Forwarder)
  : Forwarder * list observation * completion unit :=
  let '(messages, fw1) := pop_group group fw in
  match messages with
  | [] => (fw1, [], Return tt)
  | _ :: _ =>
      let sorted := sort_messages messages in
      let warning := flush_warning group sorted in
      let unique := unique_messages sorted in
      let media := media_from (group_caption unique) 0 unique in
      match media with
      | [] => (fw1, stamp fw1 warning, Return tt)
      | _ :: _ =>
          let dest := destination_id (config fw1) in
          let '(evs, c) :=
            send_loop group (SendMediaGroup dest media) (length media)
              (send_media_group tr dest media) (seq 0 MAX_RETRIES) in
          (fw1, stamp fw1 (warning ++ evs), c)
      end
  end.

(** ** [MessageForwarder.forward_single_message] *)

Definition has_media (message : Message) : bool :=
  negb (bool_decide (photo message = [])) || bool_decide (is_Some (video message))
  || bool_decide (is_Some (document message)) || bool_decide (is_Some (audio message))
  || bool_decide (is_Some (animation message)).

(** The [except Exception] clause around both retried calls. *)
Definition log_failure {R : Type} (message : Message)
    (run : list event * completion R) : list event :=
  match run.2 with
  | Return _ => run.1
  | Raise e => run.1 ++ [Log ERROR (ErrorForwardingMessage (message_id message) (str e))]
  end.

Definition forward_single_message (tr : Transport) (message : Message) (fw : Forwarder)
  : list event :=
  let dest := destination_id (config fw) in
  match (if has_media message then get_media_input message else None) with
  | Some input_media =>
      log_failure message
        (retry_operation (SendMediaGroup dest [input_media])
           (send_media_group tr dest [input_media]))
  | None =>
      log_failure message
        (retry_operation (CopyMessage dest (chat_id message) (message_id message))
           (copy_message tr dest (chat_id message) (message_id message)))
  end.

(** ** Dispatch and aggregation: [MessageForwarder.forward_message] *)

(** Lines 281-282: append to the buffer and count the message. *)
Definition buffer_message (group : string) (message : Message) (fw : Forwarder)
  : Forwarder :=
  {| media_groups :=
       <[group := default [] (media_groups fw !! group) ++ [message]]> (media_groups fw);
     media_group_counts :=
       <[group := default 0 (media_group_counts fw !! group) + 1]> (media_group_counts fw);
     scheduled_media_groups := scheduled_media_groups fw;
     config := config fw;
     job_queue := job_queue fw |}.

(** Lines 285-288: the pending jobs named after the group are removed. *)
Definition cancel_timer (group : string) (fw : Forwarder) : Forwarder :=
  if bool_decide (group ∈ scheduled_media_groups fw) then
    {| media_groups := media_groups fw;
       media_group_counts := media_group_counts fw;
       scheduled_media_groups := scheduled_media_groups fw;
       config := config fw;
       job_queue := filter (λ name, name ≠ group) (job_queue fw) |}
  else fw.

(** Lines 297-302: mark the group as scheduled and queue a fresh job. *)
Definition reset_timer (group : string) (fw : Forwarder) : Forwarder :=
  {| media_groups := media_groups fw;
     media_group_counts := media_group_counts fw;
     scheduled_media_groups := {[group]} ∪ scheduled_media_groups fw;
     config := config fw;
     job_queue := job_queue fw ++ [group] |}.

Definition handle_group (tr : Transport) (group : string) (message : Message)
    (fw : Forwarder) : Forwarder * list observation * completion unit :=
  let fw1 := cancel_timer group (buffer_message group message fw) in
  let count := default 0 (media_group_counts fw1 !! group) in
  if bool_decide (MAX_MEDIA_GROUP_SIZE ≤ count) then
    let '(fw2, obs, c) := process_media_group tr group fw1 in
    match c with
    | Return _ => (fw2, obs ++ [(fw2, Log INFO (ProcessingImmediately group))], Return tt)
    | Raise e => (fw2, obs, Raise e)
    end
  else
    let fw2 := reset_timer group fw1 in
    (fw2, [(fw2, Log INFO (TimerReset group count))], Return tt).

Definition forward_message (tr : Transport) (update : Update) (fw : Forwarder)
  : Forwarder * list observation * completion unit :=
  if negb (bool_decide (Some (effective_chat_id update) = source_id (config fw))) then
    (fw, [], Return tt)
  else if negb (truthy_int (destination_id (config fw))) then
    (fw, [(fw, Log WARNING DestinationNotSet)], Return tt)
  else
    match validate_config (config fw) with
    | Raise e => (fw, [(fw, Log ERROR (InvalidConfiguration (str e)))], Return tt)
    | Return _ =>
        let message := effective_message update in
        if truthy_str (media_group_id message) then
          handle_group tr (default EmptyString (media_group_id message)) message fw
        else
          (fw, stamp fw (forward_single_message tr message fw), Return tt)
    end.

(** ** The event loop: one callback at a time *)

(** A one-shot job leaves the queue when it fires. *)
Definition job_fired (before after : list string) (fw : Forwarder) : Forwarder :=
  {| media_groups := media_groups fw;
     media_group_counts := media_group_counts fw;
     scheduled_media_groups := scheduled_media_groups fw;
     config := config fw;
     job_queue := before ++ after |}.

Definition set_config (c : Config) (fw : Forwarder) : Forwarder :=
  {| media_groups := media_groups fw;
     media_group_counts := media_group_counts fw;
     scheduled_media_groups := scheduled_media_groups fw;
     config := c;
     job_queue := job_queue fw |}.

(** The callbacks that touch the forwarder: the message handler, the timer
    job of a group, which leaves the queue as it fires, and the
    administrative commands that overwrite the configuration.  Each of them
    changes the containers only before its first suspension, so a callback
    is one step. *)
Inductive step : Forwarder -> Forwarder -> Prop :=
| step_message (tr : Transport) (update : Update) (fw : Forwarder) :
    step fw (forward_message tr update fw).1.1
| step_timer (tr : Transport) (group : string) (before after : list string)
    (fw : Forwarder) :
    job_queue fw = before ++ group :: after ->
    step fw (process_media_group tr group (job_fired before after fw)).1.1
| step_command (c : Config) (fw : Forwarder) :
    step fw (set_config c fw).

(** A flush that runs although no job of its group is queued, as when a
    job's callback starts after a handler has already replaced the job. *)
Inductive late_flush : Forwarder -> Forwarder -> Prop :=
| late_flush_intro (tr : Transport) (group : string) (fw : Forwarder) :
    late_flush fw (process_media_group tr group fw).1.1.

Definition any_step (fw fw' : Forwarder) : Prop := step fw fw' ∨ late_flush fw fw'.

(** States reached from a fresh forwarder: by any callbacks, and by
    callbacks of which every flush is a handler's or a queued job's. *)
Definition reachable (fw : Forwarder) : Prop :=
  ∃ c, rtc any_step (init c) fw.

Definition reachable_by_queue (fw : Forwarder) : Prop :=
  ∃ c, rtc step (init c) fw.

(** What the aggregator maintains between callbacks: on its three
    containers, *)
Record buffers_consistent (fw : Forwarder) : Prop := {
  buffer_scheduled :
    ∀ g, g ∈ dom (media_groups fw) ↔ g ∈ scheduled_media_groups fw;
  buffer_counted :
    ∀ g, media_group_counts fw !! g = length <$> media_groups fw !! g;
  buffer_nonempty :
    ∀ g, media_groups fw !! g ≠ Some []
}.

(** and, as long as every flush is a handler's or a queued job's, on the
    job queue as well. *)
Record consistent (fw : Forwarder) : Prop := {
  consistent_buffers : buffers_consistent fw;
  jobs_scheduled :
    ∀ g, g ∈ job_queue fw ↔ g ∈ scheduled_media_groups fw;
  jobs_unique : NoDup (job_queue fw)
}.

(** The three entries of a group are gone. *)
Definition erased (group : string) (fw : Forwarder) : Prop :=
  media_groups fw !! group = None
  ∧ media_group_counts fw !! group = None
  ∧ group ∉ scheduled_media_groups fw.

(** ** Sample inputs *)

Definition sample_config : Config :=
  {| source_id := Some (-100)%Z; destination_id := Some (-200)%Z |}.

Definition bold : MessageEntity :=
  {| entity_type := "bold"; entity_offset := 0; entity_length := 4 |}.

(** A photo message of the album ["album"]. *)
Definition sample_photo (id ts : Z) (fid : string) (cap : option string)
    (ents : list MessageEntity) : Message :=
  {| message_id := id; chat_id := (-100)%Z; date := ts;
     media_group_id := Some "album"; caption := cap; caption_entities := ents;
     photo := [{| PhotoSize.file_id := fid |}];
     video := None; document := None; audio := None; animation := None |}.

(** A text message of the same album: it has no media attribute. *)
Definition sample_text (id ts : Z) : Message :=
  {| message_id := id; chat_id := (-100)%Z; date := ts;
     media_group_id := Some "album"; caption := None; caption_entities := [];
     photo := []; video := None; document := None; audio := None;
     animation := None |}.

(** A forwarder that has buffered [messages] for ["album"]. *)
Definition sample_forwarder (messages : list Message) : Forwarder :=
  {| media_groups := {[ "album" := messages ]};
     media_group_counts := {[ "album" := length messages ]};
     scheduled_media_groups := {[ "album" ]};
     config := sample_config;
     job_queue := ["album"] |}.

(** Nine photo messages of the album, and the update that brings a tenth. *)
Definition nine_photos : list Message :=
  (λ i, sample_photo (Z.of_nat i) 10 "A" None []) <$> seq 1 9.

Definition tenth_update : Update :=
  {| effective_chat_id := (-100)%Z;
     effective_message := sample_photo 10 10 "B" (Some "last") [] |}.

(** A transport on which every call raises [e]. *)
Definition failing_transport (e : exn) : Transport :=
  {| send_media_group := λ _ _ _, Raise e;
     copy_message := λ _ _ _ _, Raise e |}.

(** A transport on which every call succeeds. *)
Definition working_transport : Transport :=
  {| send_media_group := λ _ media _, Return (replicate (length media) 0%Z);
     copy_message := λ _ _ msg_id _, Return msg_id |}.

(** ** ConfigManager: loading *)

(** The dictionary [_load_config] returns when there is no usable file. *)
Definition default_config : Config :=
  {| source_id := None; destination_id := None |}.

(** What [_load_config] finds at [config_file]: no file, a file whose
    reading or decoding raises, or a file holding the two identifiers, as
    [save_config] writes them. *)
Inductive config_file : Type :=
| FileMissing
| FileUnreadable (e : exn)
| FileHolds (c : Config).

Inductive load_record : Type :=
| ErrorReadingConfig (error : string).

Definition load_config (file : config_file) : Config * list load_record :=
  match file with
  | FileMissing => (default_config, [])
  | FileUnreadable e => (default_config, [ErrorReadingConfig (str e)])
  | FileHolds c => (c, [])
  end.

(** ** Administrative commands: [CommandHandlers] *)

(** What the handlers take from outside the repository: the owner's user
    identifier ([OWNER_ID], read from the environment), Python's [int] on an
    argument ([None] when it raises [ValueError]), and the outcome of
    [save_config] for a configuration.  Replies are taken to succeed. *)
Record Environment : Type := {
  OWNER_ID : Z;
  int : string -> option Z;
  save_config : Config -> completion unit
}.

Inductive reply : Type :=
| NotAuthorized
| ProvideSourceId
| ProvideDestinationId
| SourceIdSet (id : Z)
| DestinationIdSet (id : Z)
| ProvideValidNumericId
| ConfigText (source destination : option Z).

Inductive command_event : Type :=
| ReplyText (text : reply)
| SaveConfig (c : Config).

Definition is_ValueError (e : exn) : bool :=
  match e with
  | Exception name _ => String.eqb name "ValueError"
  | _ => false
  end.

(** The [try] block shared by [set_source] and [set_destination]: the
    assignment, the save, the confirmation, and the [except ValueError]
    clause.  The assignment is not undone when the save raises. *)
Definition assign_and_save (env : Environment) (assigned : Config)
    (confirmation : reply) : Config * list command_event * completion unit :=
  match save_config env assigned with
  | Return _ => (assigned, [SaveConfig assigned; ReplyText confirmation], Return tt)
  | Raise e =>
      if is_ValueError e
      then (assigned, [SaveConfig assigned; ReplyText ProvideValidNumericId], Return tt)
      else (assigned, [SaveConfig assigned], Raise e)
  end.

Definition set_source (env : Environment) (user_id : Z) (args : list string)
    (c : Config) : Config * list command_event * completion unit :=
  if negb (bool_decide (user_id = OWNER_ID env)) then
    (c, [ReplyText NotAuthorized], Return tt)
  else
    match args with
    | [] => (c, [ReplyText ProvideSourceId], Return tt)
    | arg :: _ =>
        match int env arg with
        | None => (c, [ReplyText ProvideValidNumericId], Return tt)
        | Some id =>
            assign_and_save env
              {| source_id := Some id; destination_id := destination_id c |}
              (SourceIdSet id)
        end
    end.

Definition set_destination (env : Environment) (user_id : Z) (args : list string)
    (c : Config) : Config * list command_event * completion unit :=
  if negb (bool_decide (user_id = OWNER_ID env)) then
    (c, [ReplyText NotAuthorized], Return tt)
  else
    match args with
    | [] => (c, [ReplyText ProvideDestinationId], Return tt)
    | arg :: _ =>
        match int env arg with
        | None => (c, [ReplyText ProvideValidNumericId], Return tt)
        | Some id =>
            assign_and_save env
              {| source_id := source_id c; destination_id := Some id |}
              (DestinationIdSet id)
        end
    end.

Definition show_config (env : Environment) (user_id : Z) (c : Config)
  : list command_event :=
  if negb (bool_decide (user_id = OWNER_ID env)) then [ReplyText NotAuthorized]
  else [ReplyText (ConfigText (source_id c) (destination_id c))].

(** An environment for examples: the owner is user 42, [int] reads three
    literals, and every save succeeds. *)
Definition sample_env : Environment :=
  {| OWNER_ID := 42;
     int := λ arg, if String.eqb arg "-100" then Some (-100)%Z
                   else if String.eqb arg "-200" then Some (-200)%Z
                   else if String.eqb arg "5" then Some 5%Z
                   else None;
     save_config := λ _, Return tt |}.

(** ** Reading traces *)

Definition await_timeout (ev : event) : option (option Z) :=
  match ev with Await _ timeout => Some timeout | _ => None end.

Definition awaited_call (ev : event) : option transport_call :=
  match ev with Await call _ => Some call | _ => None end.

(** The calls a run awaits, in order. *)
Definition calls (trace : list event) : list transport_call :=
  omap awaited_call trace.

(** An output item without its caption and caption entities. *)
Definition payload (m : InputMedia) : InputMedia :=
  match m with
  | InputMediaPhoto f _ _ => InputMediaPhoto f None None
  | InputMediaVideo f _ _ d w h => InputMediaVideo f None None d w h
  | InputMediaDocument f _ _ n => InputMediaDocument f None None n
  | InputMediaAudio f _ _ d p t => InputMediaAudio f None None d p t
  end.

Definition chat_of (call : transport_call) : option Z :=
  match call with
  | SendMediaGroup chat _ => chat
  | CopyMessage chat _ _ => chat
  end.

(** A completion without its value. *)
Definition outcome_of {R : Type} (c : completion R) : completion unit :=
  match c with
  | Return _ => Return tt
  | Raise e => Raise e
  end.

(** What the transport stub answers to a call on a given attempt. *)
Definition outcome (tr : Transport) (call : transport_call) (attempt : nat)
  : completion unit :=
  match call with
  | SendMediaGroup chat media => outcome_of (send_media_group tr chat media attempt)
  | CopyMessage chat from msg_id => outcome_of (copy_message tr chat from msg_id attempt)
  end.

(** The call [forward_single_message] retries for a message. *)
Definition single_call (dest : option Z) (message : Message) : transport_call :=
  match get_media_input message with
  | Some input_media => SendMediaGroup dest [input_media]
  | None => CopyMessage dest (chat_id message) (message_id message)
  end.

(** Handling a run of updates, one handler after the other. *)
Definition forward_messages (tr : Transport) (updates : list Update) (fw : Forwarder)
  : Forwarder * list observation :=
  foldl (λ acc update,
           let out := forward_message tr update acc.1 in
           (out.1.1, acc.2 ++ out.1.2))
        (fw, []) updates.

(** An update carrying [message] from the configured source chat. *)
Definition update_from (chat : Z) (message : Message) : Update :=
  {| effective_chat_id := chat; effective_message := message |}.

(** * Properties *)

(** ** Config gate *)

Section ConfigGate.

Lemma is_negative_int_true (v : option Z) :
  is_negative_int v = true ↔ ∃ z, v = Some z ∧ (z < 0)%Z.
Proof.
  destruct v as [z|]; simpl.
  - rewrite bool_decide_eq_true. split; [eauto|]. by intros (? & [= <-] & ?).
  - split; [done|]. by intros (? & ? & _).
Qed.

(** Validation either succeeds or raises one of its three messages. *)
Lemma validate_config_raises (c : Config) (e : exn) :
  validate_config c = Raise e →
  e = ValueError "Source and destination channels cannot be the same"
  ∨ e = ValueError "Invalid source channel ID format"
  ∨ e = ValueError "Invalid destination channel ID format".
Proof.
  unfold validate_config. repeat case_match; naive_solver.
Qed.

(** C2, as stated, fails: with the source unset and a well-formed
    destination, validation reports a malformed source; no reason for a
    missing identifier exists. *)
Lemma validate_config_unset_source_is_malformed :
  let c := {| source_id := None; destination_id := Some (-5)%Z |} in
  source_id c = None
  ∧ spec_validate c = Some MissingSource
  ∧ validate_config c = Raise (ValueError "Invalid source channel ID format")
  ∧ validate_reason c = Some MalformedSource
  ∧ validate_reason c ≠ spec_validate c.
Proof. vm_compute. repeat split; discriminate. Qed.

(** C2 (amended): validation succeeds exactly on two distinct negative
    integers.  Otherwise it fails with the first defect in the order:
    equal identifiers (two unset identifiers are equal), then a source that
    is unset or not negative, then such a destination.  It never reports a
    missing identifier. *)
Theorem validate_config_cases (c : Config) :
  (validate_config c = Return tt ↔
     ∃ s d, source_id c = Some s ∧ destination_id c = Some d
            ∧ (s < 0)%Z ∧ (d < 0)%Z ∧ s ≠ d)
  ∧ (validate_reason c = Some SourceEqualsDestination ↔
       source_id c = destination_id c)
  ∧ (validate_reason c = Some MalformedSource ↔
       source_id c ≠ destination_id c ∧ is_negative_int (source_id c) = false)
  ∧ (validate_reason c = Some MalformedDestination ↔
       source_id c ≠ destination_id c ∧ is_negative_int (source_id c) = true
       ∧ is_negative_int (destination_id c) = false)
  ∧ validate_reason c ≠ Some MissingSource
  ∧ validate_reason c ≠ Some MissingDestination.
Proof.
  destruct c as [s d]. unfold validate_reason, validate_config. simpl.
  case_bool_decide as Heq; simpl.
  { repeat split; try done; naive_solver. }
  destruct (is_negative_int s) eqn:Hs; simpl;
    [destruct (is_negative_int d) eqn:Hd; simpl|].
  - apply is_negative_int_true in Hs as (zs & -> & ?).
    apply is_negative_int_true in Hd as (zd & -> & ?).
    repeat split; try done; try naive_solver.
  - repeat split; try done; try naive_solver.
    all: destruct s, d; simpl in *; try rewrite bool_decide_eq_false in Hd;
      naive_solver.
  - repeat split; try done; try naive_solver.
    all: destruct s, d; simpl in *; try rewrite bool_decide_eq_false in Hs;
      naive_solver.
Qed.

Lemma validate_config_cases_witness :
  validate_config sample_config = Return tt
  ∧ validate_reason {| source_id := None; destination_id := None |}
    = Some SourceEqualsDestination
  ∧ validate_reason {| source_id := Some 5%Z; destination_id := Some (-200)%Z |}
    = Some MalformedSource.
Proof.
  split; [|split].
  - destruct (validate_config_cases sample_config) as (Hok & _).
    apply Hok. exists (-100)%Z, (-200)%Z. repeat split; (reflexivity || lia || discriminate).
  - destruct (validate_config_cases {| source_id := None; destination_id := None |})
      as (_ & Heq & _).
    apply Heq. reflexivity.
  - destruct (validate_config_cases
                {| source_id := Some 5%Z; destination_id := Some (-200)%Z |})
      as (_ & _ & Hsrc & _).
    apply Hsrc. split; [discriminate|reflexivity].
Defined.

End ConfigGate.

(** ** Retry executor *)

Section RetryExecutor.

Context {R : Type}.
Implicit Types (op : nat → completion R) (call : transport_call) (e : exn).

Lemma tally_incr_nonempty (k : string) (m : gmap string nat) : tally_incr k m ≠ ∅.
Proof. apply insert_non_empty. Qed.

Lemma on_failure_eq (i : nat) e (m : gmap string nat) :
  on_failure i e m = (tally_incr (failure_kind e) m, retry_delay i e).
Proof. by destruct e. Qed.

Lemma finally_raises_last (k : string) (m : gmap string nat) :
  finally_raises (MAX_RETRIES - 1) (tally_incr k m) = true.
Proof.
  unfold finally_raises. rewrite bool_decide_eq_true_2 by done.
  by rewrite bool_decide_eq_false_2 by apply tally_incr_nonempty.
Qed.

Lemma finally_raises_early (i : nat) (m : gmap string nat) :
  i < MAX_RETRIES - 1 → finally_raises i m = false.
Proof.
  intros Hi. unfold finally_raises.
  rewrite bool_decide_eq_false_2; [done|]. lia.
Qed.

(** The delay after a failed attempt, kind by kind. *)
Lemma retry_delay_rate_limit (i : nat) (n : Z) (msg : string) :
  retry_delay i (RetryAfter n msg) = (n * (Z.of_nat i + 1))%Z.
Proof. reflexivity. Qed.

Lemma retry_delay_generic (i : nat) e :
  (∀ n msg, e ≠ RetryAfter n msg) →
  retry_delay i e = (RETRY_DELAY * 2 ^ Z.of_nat i)%Z.
Proof. destruct e; [intros H; by destruct (H retry_after msg)|done..]. Qed.

(** One step of the loop on a failed attempt that is not the last one. *)
Lemma retry_loop_failed call op (i : nat) (rest : list nat) e (m : gmap string nat) :
  op i = Raise e → i < MAX_RETRIES - 1 →
  retry_loop call op (i :: rest) m =
    (Await call (Some (progressive_timeout i)) :: Sleep (retry_delay i e)
       :: (retry_loop call op rest (tally_incr (failure_kind e) m)).1,
     (retry_loop call op rest (tally_incr (failure_kind e) m)).2).
Proof.
  intros Hop Hi. cbn [retry_loop]. rewrite Hop, on_failure_eq.
  rewrite finally_raises_early by done.
  by destruct (retry_loop call op rest _).
Qed.

#[local] Ltac failed_attempt H :=
  rewrite (retry_loop_failed _ _ _ _ _ _ H) by (cbn; lia).

Lemma retry_operation_first call op (r : R) :
  op 0 = Return r →
  retry_operation call op = ([Await call (Some 30%Z)], Return (Some r)).
Proof. intros Hop. unfold retry_operation. cbn. by rewrite Hop. Qed.

Lemma retry_operation_second call op e0 (r : R) :
  op 0 = Raise e0 → op 1 = Return r →
  retry_operation call op =
    ([Await call (Some 30%Z); Sleep (retry_delay 0 e0); Await call (Some 40%Z)],
     Return (Some r)).
Proof.
  intros H0 H1. unfold retry_operation. cbn [seq MAX_RETRIES].
  failed_attempt H0.
  cbn [retry_loop]. rewrite H1. by rewrite finally_raises_early by (cbn; lia).
Qed.

Lemma retry_operation_exhausted call op e0 e1 e2 :
  op 0 = Raise e0 → op 1 = Raise e1 → op 2 = Raise e2 →
  retry_operation call op =
    ([Await call (Some 30%Z); Sleep (retry_delay 0 e0);
      Await call (Some 40%Z); Sleep (retry_delay 1 e1);
      Await call (Some 50%Z); Sleep (retry_delay 2 e2);
      Log ERROR (FailedAfterAttempts MAX_RETRIES (tally [e0; e1; e2]))],
     Raise no_active_exception).
Proof.
  intros H0 H1 H2. unfold retry_operation. cbn [seq MAX_RETRIES].
  failed_attempt H0. failed_attempt H1.
  cbn [retry_loop]. rewrite H2, on_failure_eq.
  by rewrite (finally_raises_last (failure_kind e2)).
Qed.

(** The [finally] clause also runs when the third attempt returns: the
    tally of the two earlier failures is not empty, so the bare [raise]
    replaces the result. *)
Lemma retry_operation_third call op e0 e1 (r : R) :
  op 0 = Raise e0 → op 1 = Raise e1 → op 2 = Return r →
  retry_operation call op =
    ([Await call (Some 30%Z); Sleep (retry_delay 0 e0);
      Await call (Some 40%Z); Sleep (retry_delay 1 e1);
      Await call (Some 50%Z);
      Log ERROR (FailedAfterAttempts MAX_RETRIES (tally [e0; e1]))],
     Raise no_active_exception).
Proof.
  intros H0 H1 H2. unfold retry_operation. cbn [seq MAX_RETRIES].
  failed_attempt H0. failed_attempt H1.
  cbn [retry_loop]. rewrite H2.
  by rewrite (finally_raises_last (failure_kind e1)).
Qed.

(** The inline loop starts with a send. *)
Lemma send_loop_head (g : string) call (n : nat) op (attempt : nat) (rest : list nat) :
  ∃ tail, (send_loop g call n op (attempt :: rest)).1 = Await call None :: tail.
Proof.
  simpl. destruct (op attempt); [eauto|].
  case_bool_decide; destruct (send_loop g call n op rest); eauto.
Qed.

(** The inline loop of the batch path when every attempt fails. *)
Lemma send_loop_exhausted (g : string) call (n : nat) op e0 e1 e2 :
  op 0 = Raise e0 → op 1 = Raise e1 → op 2 = Raise e2 →
  send_loop g call n op (seq 0 MAX_RETRIES) =
    ([Await call None; Log ERROR (SendAttemptFailed 1 MAX_RETRIES (str e0));
      Sleep (batch_delay 0 e0);
      Await call None; Log ERROR (SendAttemptFailed 2 MAX_RETRIES (str e1));
      Sleep (batch_delay 1 e1);
      Await call None; Log ERROR (SendAttemptFailed 3 MAX_RETRIES (str e2));
      Log ERROR (FailedToForwardMediaGroup g MAX_RETRIES)],
     Return tt).
Proof. intros H0 H1 H2. cbn. by rewrite H0, H1, H2. Qed.

End RetryExecutor.

(** The tally counts the failures kind by kind. *)
Lemma tally_counts (k : string) (failures : list exn) :
  default 0 (tally failures !! k)
  = length (filter (λ e, failure_kind e = k) failures).
Proof.
  unfold tally.
  assert (∀ m : gmap string nat,
    default 0 (foldl (λ errors e, tally_incr (failure_kind e) errors) m failures !! k)
    = default 0 (m !! k) + length (filter (λ e, failure_kind e = k) failures)) as Hgen.
  { induction failures as [|e es IH]; intros m; simpl; [lia|].
    rewrite IH. unfold tally_incr. rewrite filter_cons. case_decide as Hk.
    - subst k. rewrite lookup_insert_eq. simpl. lia.
    - by rewrite lookup_insert_ne. }
  rewrite Hgen, lookup_empty. done.
Qed.

(** ** The flush, in terms of the canonical batch *)

Lemma flush_warning_nil (g : string) : flush_warning g [] = [].
Proof. reflexivity. Qed.

Lemma process_media_group_eq (tr : Transport) (g : string) (fw : Forwarder) :
  process_media_group tr g fw =
    let messages := default [] (media_groups fw !! g) in
    let fw1 := (pop_group g fw).2 in
    let media := canonical_batch messages in
    let dest := destination_id (config fw) in
    let warning := flush_warning g (sort_messages messages) in
    match media with
    | [] => (fw1, stamp fw1 warning, Return tt)
    | _ :: _ =>
        let run := send_loop g (SendMediaGroup dest media) (length media)
                     (send_media_group tr dest media) (seq 0 MAX_RETRIES) in
        (fw1, stamp fw1 (warning ++ run.1), run.2)
    end.
Proof.
  unfold process_media_group, pop_group, canonical_batch, canonical_messages.
  cbn [config]. destruct (default [] (media_groups fw !! g)) as [|m ms] eqn:Hm.
  - reflexivity.
  - cbv zeta.
    destruct (media_from _ 0 _) as [|x xs]; [done|].
    by destruct (send_loop _ _ _ _ _).
Qed.

Lemma process_media_group_state (tr : Transport) (g : string) (fw : Forwarder) :
  (process_media_group tr g fw).1.1 = (pop_group g fw).2.
Proof.
  rewrite process_media_group_eq. cbv zeta.
  by destruct (canonical_batch _).
Qed.

Lemma process_media_group_returns (tr : Transport) (g : string) (fw : Forwarder) :
  (process_media_group tr g fw).2 = Return tt.
Proof.
  rewrite process_media_group_eq. cbv zeta.
  destruct (canonical_batch _) as [|x xs]; [done|]. cbn [snd].
  generalize (send_media_group tr (destination_id (config fw)) (x :: xs)).
  generalize (SendMediaGroup (destination_id (config fw)) (x :: xs)).
  generalize (length (x :: xs)).
  intros n call op. cbn.
  destruct (op 0); [done|]. destruct (op 1); [done|]. by destruct (op 2).
Qed.

(** ** Exhaustion, rate limits and backoff on the two retry paths *)

(** C1, as stated, fails on the batch path: when all three sends of a
    flushed group fail, [process_media_group] logs the failures and
    returns; it logs no tally and raises nothing. *)
Lemma batch_exhaustion_returns_normally :
  let tr := failing_transport (Exception "NetworkError" "Bad Gateway") in
  let fw := sample_forwarder [sample_photo 1 10 "A" None []] in
  let call := SendMediaGroup (Some (-200)%Z) [InputMediaPhoto "A" None None] in
  (process_media_group tr "album" fw).2 = Return tt
  ∧ (process_media_group tr "album" fw).1.2.*2 =
      [Await call None; Log ERROR (SendAttemptFailed 1 3 "Bad Gateway"); Sleep 1;
       Await call None; Log ERROR (SendAttemptFailed 2 3 "Bad Gateway"); Sleep 2;
       Await call None; Log ERROR (SendAttemptFailed 3 3 "Bad Gateway");
       Log ERROR (FailedToForwardMediaGroup "album" 3)].
Proof. split; vm_compute; reflexivity. Qed.

(** C1 (amended): [retry_operation] returns the operation's result when
    the first or the second attempt succeeds; when all three attempts fail
    it logs the tally of the failures by kind and raises.  The batch path
    of [process_media_group] runs its own loop: when all three sends fail
    it logs and returns normally, without a tally and without raising. *)
Theorem retry_outcomes_by_path :
  (∀ (R : Type) (call : transport_call) (op : nat → completion R),
     (∀ r, op 0 = Return r → (retry_operation call op).2 = Return (Some r))
     ∧ (∀ e0 r, op 0 = Raise e0 → op 1 = Return r →
          (retry_operation call op).2 = Return (Some r))
     ∧ (∀ e0 e1 e2, op 0 = Raise e0 → op 1 = Raise e1 → op 2 = Raise e2 →
          (retry_operation call op).2 = Raise no_active_exception
          ∧ last (retry_operation call op).1
            = Some (Log ERROR (FailedAfterAttempts MAX_RETRIES (tally [e0; e1; e2])))
          ∧ ∀ k, default 0 (tally [e0; e1; e2] !! k)
                 = length (filter (λ e, failure_kind e = k) [e0; e1; e2])))
  ∧ (∀ (tr : Transport) (g : string) (fw : Forwarder) (e0 e1 e2 : exn),
       let media := canonical_batch (default [] (media_groups fw !! g)) in
       let send := send_media_group tr (destination_id (config fw)) media in
       media ≠ [] → send 0 = Raise e0 → send 1 = Raise e1 → send 2 = Raise e2 →
       (process_media_group tr g fw).2 = Return tt
       ∧ Forall (λ o : observation, is_tally_log o.2 = false)
           (process_media_group tr g fw).1.2
       ∧ last (process_media_group tr g fw).1.2
         = Some ((pop_group g fw).2,
                 Log ERROR (FailedToForwardMediaGroup g MAX_RETRIES))).
Proof.
  split.
  - intros R call op. repeat split.
    + intros r H0. by rewrite (retry_operation_first _ _ r).
    + intros e0 r H0 H1. by rewrite (retry_operation_second _ _ e0 r).
    + by rewrite (retry_operation_exhausted _ _ e0 e1 e2).
    + by rewrite (retry_operation_exhausted _ _ e0 e1 e2).
    + intros k. apply tally_counts.
  - intros tr g fw e0 e1 e2 media send Hne H0 H1 H2.
    split; [apply process_media_group_returns|].
    rewrite process_media_group_eq. cbv zeta. fold media.
    destruct media as [|x xs] eqn:Hmedia; [done|]. fold send.
    rewrite (send_loop_exhausted _ _ _ _ e0 e1 e2) by done. cbn [fst snd].
    split.
    + unfold stamp. rewrite Forall_fmap, Forall_app. split.
      * unfold flush_warning. case_bool_decide; repeat constructor.
      * repeat constructor.
    + unfold stamp. rewrite fmap_app, last_app. reflexivity.
Qed.

Lemma retry_outcomes_by_path_witness :
  (retry_operation (CopyMessage (Some (-200)%Z) (-100)%Z 7%Z)
     (λ i, if bool_decide (i = 0) then Raise (TimeoutError EmptyString)
           else Return 7%Z)).2 = Return (Some 7%Z)
  ∧ (process_media_group (failing_transport (RetryAfter 5 "Flood control exceeded"))
       "album" (sample_forwarder [sample_photo 1 10 "A" None []])).2 = Return tt.
Proof.
  split.
  - apply (proj1 retry_outcomes_by_path Z) with (e0 := TimeoutError EmptyString); reflexivity.
  - eapply (proj2 retry_outcomes_by_path); [by vm_compute|reflexivity..].
Defined.

(** C3: on the batch path the claim does not hold.  A rate limit
    advising 30 seconds on the first send of a flushed group is followed by
    a sleep of 1 second, the generic backoff; the advised delay is never
    slept. *)
Lemma batch_rate_limit_sleeps_generic_backoff :
  let e := RetryAfter 30 "Flood control exceeded. Retry in 30 seconds" in
  let fw := sample_forwarder [sample_photo 1 10 "A" None []] in
  let call := SendMediaGroup (Some (-200)%Z) [InputMediaPhoto "A" None None] in
  let trace := (process_media_group (failing_transport e) "album" fw).1.2.*2 in
  trace !! 0 = Some (Await call None)
  ∧ trace !! 2 = Some (Sleep 1)
  ∧ Sleep (30 * (0 + 1)) ∉ trace.
Proof.
  vm_compute. repeat split.
  intros H. repeat (apply elem_of_cons in H as [H|H]; [discriminate H|]).
  by apply elem_of_nil in H.
Qed.

(** The sleep after a rate limit, path by path.  In [retry_operation],
    whatever call it wraps, a rate limit advising [n] seconds on attempt
    [i] is followed by a sleep of [n * (i + 1)].  The inline loop of
    [process_media_group] has no clause for rate limits: after such a
    failure on attempt [i] it sleeps [RETRY_DELAY * 2^i], doubled when the
    message contains "Timed out", if [i] is not the last attempt, and does
    not sleep after the last one. *)
Theorem rate_limit_delay_by_path (n : Z) (msg : string) :
  (∀ (R : Type) (call : transport_call) (op : nat → completion R) (i : nat),
     i < MAX_RETRIES → (∀ j, j < i → ∃ e, op j = Raise e) →
     op i = Raise (RetryAfter n msg) →
     (retry_operation call op).1 !! (2 * i)
       = Some (Await call (Some (progressive_timeout i)))
     ∧ (retry_operation call op).1 !! (2 * i + 1)
       = Some (Sleep (n * (Z.of_nat i + 1))%Z))
  ∧ (∀ (R : Type) (g : string) (call : transport_call) (items : nat)
       (op : nat → completion R) (i : nat),
       i < MAX_RETRIES → (∀ j, j < i → ∃ e, op j = Raise e) →
       op i = Raise (RetryAfter n msg) →
       let trace := (send_loop g call items op (seq 0 MAX_RETRIES)).1 in
       trace !! (3 * i) = Some (Await call None)
       ∧ if bool_decide (i < MAX_RETRIES - 1)
         then trace !! (3 * i + 2)
              = Some (Sleep (if contains "Timed out" msg
                             then RETRY_DELAY * 2 ^ Z.of_nat i * 2
                             else RETRY_DELAY * 2 ^ Z.of_nat i)%Z)
         else Forall (λ ev, is_sleep ev = false) (drop (3 * i) trace)).
Proof.
  split.
  - intros R call op i Hi Hprev Hop.
    assert (i = 0 ∨ i = 1 ∨ i = 2) as [-> | [-> | ->]] by (unfold MAX_RETRIES in Hi; lia).
    + unfold retry_operation. cbn [seq MAX_RETRIES].
      rewrite (retry_loop_failed _ _ _ _ _ _ Hop) by (cbn; lia). done.
    + destruct (Hprev 0) as [e0 H0]; [lia|].
      unfold retry_operation. cbn [seq MAX_RETRIES].
      rewrite (retry_loop_failed _ _ _ _ _ _ H0) by (cbn; lia).
      rewrite (retry_loop_failed _ _ _ _ _ _ Hop) by (cbn; lia). done.
    + destruct (Hprev 0) as [e0 H0]; [lia|].
      destruct (Hprev 1) as [e1 H1]; [lia|].
      rewrite (retry_operation_exhausted _ _ _ _ _ H0 H1 Hop). done.
  - intros R g call items op i Hi Hprev Hop trace.
    assert (i = 0 ∨ i = 1 ∨ i = 2) as [-> | [-> | ->]] by (unfold MAX_RETRIES in Hi; lia).
    + subst trace. cbn. rewrite Hop.
      destruct (op 1); [done|]. destruct (op 2); done.
    + destruct (Hprev 0) as [e0 H0]; [lia|].
      subst trace. cbn. rewrite H0, Hop. cbn.
      destruct (op 2); done.
    + destruct (Hprev 0) as [e0 H0]; [lia|].
      destruct (Hprev 1) as [e1 H1]; [lia|].
      subst trace. rewrite (send_loop_exhausted _ _ _ _ _ _ _ H0 H1 Hop).
      split; [done|]. cbn. repeat constructor.
Qed.

Lemma rate_limit_delay_by_path_witness :
  (retry_operation (CopyMessage (Some (-200)%Z) (-100)%Z 7%Z)
     (λ i, if bool_decide (i = 1) then Raise (RetryAfter 30 "Flood control exceeded")
           else Raise (TimeoutError EmptyString) : completion Z)).1 !! 3
  = Some (Sleep 60).
Proof.
  apply (proj1 (rate_limit_delay_by_path 30 "Flood control exceeded") Z
           (CopyMessage (Some (-200)%Z) (-100)%Z 7%Z) _ 1).
  - unfold MAX_RETRIES. lia.
  - intros j Hj. exists (TimeoutError EmptyString).
    assert (j = 0) as -> by lia. reflexivity.
  - reflexivity.
Defined.

(** C4, as stated, fails in [retry_operation]: a failure whose message is
    "Timed out" is followed by the plain [1], [2] backoff, not by the
    doubled one. *)
Lemma retry_operation_timeout_not_doubled :
  let e := Exception "TimedOut" "Timed out" in
  let call := CopyMessage (Some (-200)%Z) (-100)%Z 7%Z in
  let run := retry_operation call (λ _, Raise e : completion Z) in
  contains "Timed out" (str e) = true
  ∧ take 5 run.1 = [Await call (Some 30%Z); Sleep 1;
                    Await call (Some 40%Z); Sleep 2;
                    Await call (Some 50%Z)]
  ∧ run.2 = Raise no_active_exception.
Proof. vm_compute. done. Qed.

(** C4 (amended): against an operation whose three attempts all fail
    with a failure other than a rate limit, both retry loops make exactly
    three attempts and sleep [RETRY_DELAY * 2^i] between attempt [i] and
    the next.  [retry_operation] never doubles that delay and ends by
    raising; the batch loop of [process_media_group] doubles it when the
    failure message contains "Timed out" and ends by logging the failure
    and returning. *)
Theorem generic_failure_schedule_by_path (e0 e1 e2 : exn) :
  is_rate_limit e0 = false → is_rate_limit e1 = false → is_rate_limit e2 = false →
  (∀ (R : Type) (call : transport_call) (op : nat → completion R),
     op 0 = Raise e0 → op 1 = Raise e1 → op 2 = Raise e2 →
     ∃ tail,
       (retry_operation call op).1
       = [Await call (Some 30%Z); Sleep (RETRY_DELAY * 2 ^ 0);
          Await call (Some 40%Z); Sleep (RETRY_DELAY * 2 ^ 1);
          Await call (Some 50%Z)] ++ tail
       ∧ Forall (λ ev, is_await ev = false) tail
       ∧ (retry_operation call op).2 = Raise no_active_exception)
  ∧ (∀ (R : Type) (g : string) (call : transport_call) (items : nat)
       (op : nat → completion R),
       op 0 = Raise e0 → op 1 = Raise e1 → op 2 = Raise e2 →
       let delay (i : Z) (e : exn) :=
         (if contains "Timed out" (str e)
          then RETRY_DELAY * 2 ^ i * 2 else RETRY_DELAY * 2 ^ i)%Z in
       send_loop g call items op (seq 0 MAX_RETRIES)
       = ([Await call None; Log ERROR (SendAttemptFailed 1 MAX_RETRIES (str e0));
           Sleep (delay 0%Z e0);
           Await call None; Log ERROR (SendAttemptFailed 2 MAX_RETRIES (str e1));
           Sleep (delay 1%Z e1);
           Await call None; Log ERROR (SendAttemptFailed 3 MAX_RETRIES (str e2));
           Log ERROR (FailedToForwardMediaGroup g MAX_RETRIES)],
          Return tt)).
Proof.
  intros G0 G1 G2. split.
  - intros R call op H0 H1 H2.
    rewrite (retry_operation_exhausted _ _ _ _ _ H0 H1 H2). cbn [fst snd].
    rewrite !retry_delay_generic by (intros ? ? ->; discriminate).
    eexists. split; [reflexivity|]. split; [|done]. repeat constructor.
  - intros R g call items op H0 H1 H2 delay.
    rewrite (send_loop_exhausted _ _ _ _ _ _ _ H0 H1 H2). reflexivity.
Qed.

Lemma generic_failure_schedule_by_path_witness :
  (send_loop "album" (SendMediaGroup (Some (-200)%Z) []) 0
     (λ _, Raise (Exception "TimedOut" "Timed out") : completion (list Z))
     (seq 0 MAX_RETRIES)).2 = Return tt.
Proof.
  pose proof (generic_failure_schedule_by_path
                (Exception "TimedOut" "Timed out") (Exception "TimedOut" "Timed out")
                (Exception "TimedOut" "Timed out") eq_refl eq_refl eq_refl) as [_ H].
  by rewrite (H (list Z) "album" (SendMediaGroup (Some (-200)%Z) []) 0
                (λ _, Raise (Exception "TimedOut" "Timed out")) eq_refl eq_refl eq_refl).
Defined.

(** ** Batch canonicalizer: ordering *)

Section Ordering.

Lemma key_lt_true (a b : Z * Z) : key_lt a b = true → key_le a b.
Proof.
  unfold key_lt, key_le. intros H.
  apply orb_true_iff in H as [H|H]; [left; lia|].
  apply andb_true_iff in H as [H1 H2]. right. lia.
Qed.

Lemma key_lt_false (a b : Z * Z) : key_lt a b = false → key_le b a.
Proof.
  unfold key_lt, key_le. intros H.
  apply orb_false_iff in H as [H1 H2].
  apply andb_false_iff in H2 as [H2|H2]; lia.
Qed.

Lemma key_lt_not_le (a b : Z * Z) : key_lt a b = true → key_le b a → False.
Proof.
  unfold key_lt, key_le. intros H.
  apply orb_true_iff in H as [H|H]; [lia|].
  apply andb_true_iff in H as [H1 H2]. lia.
Qed.

Lemma key_le_antisym (a b : Z * Z) : key_le a b → key_le b a → a = b.
Proof. destruct a, b. unfold key_le. simpl. intros [?|[? ?]] [?|[? ?]]; f_equal; lia. Qed.

#[local] Instance msg_le_trans : Transitive msg_le.
Proof. intros a b c. unfold msg_le, key_le. lia. Qed.

Lemma insert_by_key_perm (x : Message) (l : list Message) :
  insert_by_key x l ≡ₚ x :: l.
Proof.
  induction l as [|y l IH]; simpl; [done|].
  destruct (key_lt _ _); [|done].
  rewrite IH. apply perm_swap.
Qed.

Lemma insert_by_key_sorted (x : Message) (l : list Message) :
  StronglySorted msg_le l → StronglySorted msg_le (insert_by_key x l).
Proof.
  induction 1 as [|y l Hl IH Hy]; simpl; [repeat constructor|].
  destruct (key_lt _ _) eqn:Hlt.
  - constructor; [done|].
    rewrite insert_by_key_perm. constructor; [|done].
    by apply key_lt_true.
  - apply key_lt_false in Hlt.
    constructor; [by constructor|].
    constructor; [done|].
    eapply Forall_impl; [exact Hy|]. intros z Hz. by trans y.
Qed.

Lemma sort_messages_perm (messages : list Message) :
  sort_messages messages ≡ₚ messages.
Proof.
  induction messages as [|x l IH]; simpl; [done|].
  by rewrite insert_by_key_perm, IH.
Qed.

Lemma sort_messages_sorted (messages : list Message) :
  StronglySorted msg_le (sort_messages messages).
Proof.
  induction messages as [|x l IH]; simpl; [constructor|].
  by apply insert_by_key_sorted.
Qed.

(** Sorting is stable: the messages of one key keep their arrival order. *)
Lemma insert_by_key_stable (k : Z * Z) (x : Message) (l : list Message) :
  filter (λ m, sort_key m = k) (insert_by_key x l)
  = filter (λ m, sort_key m = k) (x :: l).
Proof.
  induction l as [|y l IH]; simpl; [done|].
  destruct (key_lt _ _) eqn:Hlt; [|done].
  rewrite filter_cons, IH, !filter_cons.
  destruct (decide (sort_key y = k)) as [Hy|Hy];
    destruct (decide (sort_key x = k)) as [Hx|Hx]; try done.
  exfalso. apply (key_lt_not_le _ _ Hlt). rewrite Hx, Hy.
  destruct k as [t i]. right. simpl. lia.
Qed.

Lemma sort_messages_stable (k : Z * Z) (messages : list Message) :
  filter (λ m, sort_key m = k) (sort_messages messages)
  = filter (λ m, sort_key m = k) messages.
Proof.
  induction messages as [|x l IH]; simpl; [done|].
  by rewrite insert_by_key_stable, !filter_cons, IH.
Qed.

(** In particular a list that is already in order is left as it is. *)
Lemma sort_messages_sorted_id (messages : list Message) :
  StronglySorted msg_le messages → sort_messages messages = messages.
Proof.
  induction 1 as [|x l Hl IH Hx]; simpl; [done|].
  rewrite IH. destruct Hx as [|y l' Hxy _]; simpl; [done|].
  destruct (key_lt _ _) eqn:Hlt; [|done].
  exfalso. eapply key_lt_not_le; eauto.
Qed.

End Ordering.

(** ** Batch canonicalizer: deduplication *)

Section Deduplication.

Implicit Types (seen : gset string) (l : list Message) (msg : Message).

Lemma unique_from_sublist seen l : unique_from seen l `sublist_of` l.
Proof.
  revert seen. induction l as [|msg l IH]; intros seen; simpl; [constructor|].
  destruct (file_id_of msg) as [fid|]; [case_bool_decide|];
    try (by apply sublist_cons); by apply sublist_skip.
Qed.

Lemma unique_from_supported seen l :
  Forall (λ msg, is_Some (file_id_of msg)) (unique_from seen l).
Proof.
  revert seen. induction l as [|msg l IH]; intros seen; simpl; [constructor|].
  destruct (file_id_of msg) as [fid|] eqn:Hfid; [case_bool_decide|]; try done.
  constructor; [by rewrite Hfid|done].
Qed.

Lemma unique_from_tokens seen l (fid : string) :
  fid ∈ omap file_id_of (unique_from seen l)
  ↔ fid ∈ omap file_id_of l ∧ fid ∉ seen.
Proof.
  revert seen. induction l as [|msg l IH]; intros seen; simpl.
  { rewrite elem_of_nil. tauto. }
  destruct (file_id_of msg) as [fid'|] eqn:Hfid; [case_bool_decide as Hseen|].
  - rewrite IH, elem_of_cons. split; [tauto|].
    intros [[->|?] ?]; tauto.
  - simpl. rewrite Hfid, !elem_of_cons, IH. clear IH.
    destruct (decide (fid = fid')) as [->|Hne]; [tauto|].
    set_solver.
  - apply IH.
Qed.

Lemma unique_from_NoDup seen l : NoDup (omap file_id_of (unique_from seen l)).
Proof.
  revert seen. induction l as [|msg l IH]; intros seen; simpl; [constructor|].
  destruct (file_id_of msg) as [fid|] eqn:Hfid; [case_bool_decide|]; try done.
  simpl. rewrite Hfid. constructor; [|done].
  rewrite unique_from_tokens. set_solver.
Qed.

(** A kept message is the first one in the input that carries its token. *)
Lemma unique_from_first seen l msg (fid : string) :
  msg ∈ unique_from seen l → file_id_of msg = Some fid →
  ∃ l1 l2, l = l1 ++ msg :: l2 ∧ (fid ∉ omap file_id_of l1) ∧ (fid ∉ seen).
Proof.
  revert seen. induction l as [|m l IH]; intros seen; simpl.
  { by intros ?%elem_of_nil. }
  intros Hin Hfid.
  destruct (file_id_of m) as [fid'|] eqn:Hm; [case_bool_decide as Hseen|].
  - destruct (IH _ Hin Hfid) as (l1 & l2 & -> & Hl1 & Hs).
    exists (m :: l1), l2. repeat split; [|done]. simpl. rewrite Hm.
    rewrite not_elem_of_cons. split; [|done]. by intros ->.
  - apply elem_of_cons in Hin as [->|Hin].
    + exists [], l. repeat split; [|congruence]. simpl. apply not_elem_of_nil.
    + destruct (IH _ Hin Hfid) as (l1 & l2 & -> & Hl1 & Hs).
      exists (m :: l1), l2. repeat split.
      * simpl. rewrite Hm. rewrite not_elem_of_cons. set_solver.
      * set_solver.
  - destruct (IH _ Hin Hfid) as (l1 & l2 & -> & Hl1 & Hs).
    exists (m :: l1), l2. repeat split; [|done]. simpl. by rewrite Hm.
Qed.

Lemma unique_from_idemp seen l :
  unique_from seen (unique_from seen l) = unique_from seen l.
Proof.
  revert seen. induction l as [|msg l IH]; intros seen; simpl; [done|].
  destruct (file_id_of msg) as [fid|] eqn:Hfid; [case_bool_decide as Hseen|]; try done.
  simpl. rewrite Hfid, bool_decide_eq_false_2 by done.
  f_equal. apply IH.
Qed.

Lemma length_omap_supported l :
  Forall (λ msg, is_Some (file_id_of msg)) l →
  length (omap file_id_of l) = length l.
Proof.
  induction 1 as [|msg l [fid Hfid] _ IH]; simpl; [done|].
  rewrite Hfid. simpl. f_equal. exact IH.
Qed.

(** The number of kept messages is the number of distinct tokens. *)
Lemma unique_messages_length l :
  length (unique_messages l) = size (list_to_set (omap file_id_of l) : gset string).
Proof.
  unfold unique_messages.
  rewrite <-length_omap_supported by apply unique_from_supported.
  rewrite <-(size_list_to_set (C:=gset string)) by apply unique_from_NoDup.
  f_equal. apply set_eq. intros fid.
  rewrite !elem_of_list_to_set, unique_from_tokens. set_solver.
Qed.

End Deduplication.

(** ** Batch canonicalizer: materialisation *)

Section Materialisation.

Implicit Types (gc : option string) (l : list Message) (msg : Message).

Lemma file_id_of_media_type msg :
  is_Some (file_id_of msg) ↔ is_Some (get_media_type msg).
Proof.
  unfold file_id_of, get_media_type.
  destruct (photo msg) as [|p ps] eqn:Hp.
  - simpl. destruct (video msg), (document msg), (audio msg); simpl;
      split; intros [? ?]; try done; eauto.
  - destruct (last (p :: ps)) eqn:Hlast; [split; eauto|].
    by apply last_None in Hlast.
Qed.

(** What one iteration appends for a message that passed the duplicate
    check. *)
Lemma input_media_at_supported gc (i : nat) msg (fid : string) :
  file_id_of msg = Some fid →
  ∃ im, input_media_at gc i msg = Some im
        ∧ media_of im = fid
        ∧ caption_of im = (if bool_decide (i = 0) then gc else None)
        ∧ caption_entities_of im =
            (if truthy_str (if bool_decide (i = 0) then gc else None)
             then Some (caption_entities msg) else None).
Proof.
  unfold file_id_of, get_media_type, input_media_at.
  destruct (photo msg) as [|p ps] eqn:Hp.
  - simpl. destruct (video msg), (document msg), (audio msg); simpl;
      intros [= <-]; eexists; repeat split.
  - destruct (last (p :: ps)) eqn:Hlast.
    + intros [= <-]. eexists; repeat split.
    + by apply last_None in Hlast.
Qed.

Lemma media_from_tail gc (i : nat) l :
  0 < i → Forall (λ msg, is_Some (file_id_of msg)) l →
  Forall2 (λ msg im, file_id_of msg = Some (media_of im)
                     ∧ caption_of im = None ∧ caption_entities_of im = None)
    l (media_from gc i l).
Proof.
  intros Hi Hl. revert i Hi.
  induction Hl as [|msg l [fid Hfid] _ IH]; intros i Hi; simpl; [constructor|].
  destruct (input_media_at_supported gc i msg fid Hfid) as (im & -> & Hm & Hc & He).
  rewrite bool_decide_eq_false_2 in Hc, He by lia.
  constructor; [by rewrite Hm|]. apply IH. lia.
Qed.

(** The shape of the batch: one item per deduplicated message, in the same
    order; only the first item can carry a caption and entities. *)
Lemma canonical_batch_shape (messages : list Message) :
  match canonical_messages messages with
  | [] => canonical_batch messages = []
  | first :: rest =>
      ∃ im tail,
        canonical_batch messages = im :: tail
        ∧ file_id_of first = Some (media_of im)
        ∧ caption_of im = group_caption (first :: rest)
        ∧ caption_entities_of im =
            (if truthy_str (group_caption (first :: rest))
             then Some (caption_entities first) else None)
        ∧ Forall2 (λ msg im, file_id_of msg = Some (media_of im)
                             ∧ caption_of im = None ∧ caption_entities_of im = None)
            rest tail
  end.
Proof.
  unfold canonical_batch.
  pose proof (unique_from_supported ∅ (sort_messages messages)) as Hsup.
  fold (unique_messages (sort_messages messages)) in Hsup.
  fold (canonical_messages messages) in Hsup.
  destruct (canonical_messages messages) as [|first rest]; [done|].
  apply Forall_cons in Hsup as [[fid Hfid] Hrest].
  cbv zeta. cbn [media_from].
  destruct (input_media_at_supported (group_caption (first :: rest)) 0 first fid Hfid)
    as (im & -> & Hm & Hc & He).
  exists im, (media_from (group_caption (first :: rest)) 1 rest).
  repeat split; [by rewrite Hm|done..|].
  by apply media_from_tail; [lia|].
Qed.

Lemma canonical_batch_tokens (messages : list Message) :
  media_of <$> canonical_batch messages = omap file_id_of (canonical_messages messages).
Proof.
  pose proof (canonical_batch_shape messages) as Hshape.
  destruct (canonical_messages messages) as [|first rest]; [by rewrite Hshape|].
  destruct Hshape as (im & tail & -> & Hfirst & _ & _ & Htail).
  simpl. rewrite Hfirst. f_equal.
  induction Htail as [|msg im' l k (Hm & _) _ IH]; simpl; [done|].
  by rewrite Hm, IH.
Qed.

Lemma canonical_batch_length (messages : list Message) :
  length (canonical_batch messages) = length (canonical_messages messages).
Proof.
  pose proof (canonical_batch_shape messages) as Hshape.
  destruct (canonical_messages messages) as [|first rest]; [by rewrite Hshape|].
  destruct Hshape as (im & tail & -> & _ & _ & _ & Htail).
  simpl. f_equal. symmetry. by eapply Forall2_length.
Qed.

(** The group caption is the first truthy caption of the list. *)
Lemma group_caption_first l (c : string) :
  group_caption l = Some c →
  ∃ (k : nat) msg,
    l !! k = Some msg ∧ caption msg = Some c ∧ c ≠ EmptyString
    ∧ ∀ (j : nat) m, j < k → l !! j = Some m → truthy_str (caption m) = false.
Proof.
  induction l as [|m l IH]; simpl; [done|].
  destruct (truthy_str (caption m)) eqn:Hm.
  - intros Hc. exists 0, m. repeat split; [done| |intros; lia].
    rewrite Hc in Hm. simpl in Hm. intros ->. done.
  - intros Hc. destruct (IH Hc) as (k & msg & Hk & Hcap & Hne & Hbefore).
    exists (S k), msg. repeat split; [done..|].
    intros [|j] m' Hj; simpl; [by intros [= <-]|].
    apply Hbefore. lia.
Qed.

Lemma group_caption_exists l :
  Exists (λ msg, truthy_str (caption msg) = true) l →
  ∃ c, group_caption l = Some c.
Proof.
  induction 1 as [msg l Hmsg|msg l _ IH]; simpl.
  - rewrite Hmsg. destruct (caption msg); [eauto|done].
  - destruct (truthy_str (caption msg)) eqn:Hmsg; [|done].
    destruct (caption msg); [eauto|done].
Qed.

End Materialisation.

(** ** Batch canonicalizer: the claims *)

Lemma StronglySorted_sublist {A : Type} (R : relation A) (l1 l2 : list A) :
  l1 `sublist_of` l2 → StronglySorted R l2 → StronglySorted R l1.
Proof.
  induction 1 as [|x l1 l2 Hsub IH|x l1 l2 Hsub IH]; intros Hs; [done|..].
  - apply StronglySorted_cons in Hs as [Hx Hs].
    constructor; [by apply IH|].
    apply Forall_forall. intros y Hy.
    rewrite Forall_forall in Hx. apply Hx. by eapply sublist_subseteq.
  - apply StronglySorted_cons in Hs as [_ Hs]. by apply IH.
Qed.

Lemma canonical_messages_sorted (messages : list Message) :
  StronglySorted msg_le (canonical_messages messages).
Proof.
  eapply StronglySorted_sublist; [apply unique_from_sublist|].
  apply sort_messages_sorted.
Qed.

(** Messages with pairwise distinct keys are sorted to the same list
    whatever their arrival order. *)
Lemma sort_messages_arrival_order (messages messages' : list Message) :
  messages' ≡ₚ messages → NoDup (sort_key <$> messages) →
  sort_messages messages' = sort_messages messages.
Proof.
  intros Hperm Hkeys.
  apply (StronglySorted_unique_strong msg_le);
    [|apply sort_messages_sorted..|by rewrite !sort_messages_perm].
  intros x1 x2 Hx1 Hx2 H12 H21.
  rewrite sort_messages_perm, Hperm in Hx1. rewrite sort_messages_perm in Hx2.
  pose proof (key_le_antisym _ _ H12 H21) as Hkey.
  clear -Hx1 Hx2 Hkey Hkeys.
  induction messages as [|m l IH]; [by apply elem_of_nil in Hx1|].
  rewrite fmap_cons in Hkeys. apply NoDup_cons in Hkeys as [Hm Hl].
  apply elem_of_cons in Hx1 as [->|Hx1], Hx2 as [->|Hx2]; [done|..|by apply IH].
  - destruct Hm. rewrite Hkey. by apply list_elem_of_fmap_2.
  - destruct Hm. rewrite <-Hkey. by apply list_elem_of_fmap_2.
Qed.

(** C5: when some deduplicated message has a non-empty caption, the
    first such caption, in sorted deduplicated order, is the caption of
    output position 0, and no other output position carries a caption. *)
Theorem caption_on_first_item_only (messages : list Message) :
  let unique := canonical_messages messages in
  let batch := canonical_batch messages in
  Exists (λ msg, truthy_str (caption msg) = true) unique →
  ∃ (c : string) (k : nat) (source : Message),
    unique !! k = Some source ∧ caption source = Some c ∧ c ≠ EmptyString
    ∧ (∀ (j : nat) m, j < k → unique !! j = Some m → truthy_str (caption m) = false)
    ∧ length batch = length unique
    ∧ caption_of <$> batch !! 0 = Some (Some c)
    ∧ (∀ (j : nat) im, 0 < j → batch !! j = Some im → caption_of im = None)
    ∧ length (filter (λ im, is_Some (caption_of im)) batch) = 1.
Proof.
  intros unique batch Hex.
  destruct (group_caption_exists _ Hex) as [c Hc].
  destruct (group_caption_first _ _ Hc) as (k & source & Hk & Hcap & Hne & Hbefore).
  exists c, k, source. repeat split; [done..| | | |].
  - apply canonical_batch_length.
  - pose proof (canonical_batch_shape messages) as Hshape.
    fold unique in Hshape. destruct unique as [|first rest]; [done|].
    destruct Hshape as (im & tail & Hb & _ & Him & _). subst batch.
    rewrite Hb. simpl. by rewrite Him, Hc.
  - pose proof (canonical_batch_shape messages) as Hshape.
    fold unique in Hshape. destruct unique as [|first rest]; [done|].
    destruct Hshape as (im & tail & Hb & _ & _ & _ & Htail). subst batch.
    rewrite Hb. intros [|j] im' Hj Him'; [lia|]. simpl in Him'.
    destruct (Forall2_lookup_r _ _ _ _ _ Htail Him') as (msg & _ & _ & Hnone & _).
    done.
  - pose proof (canonical_batch_shape messages) as Hshape.
    fold unique in Hshape. destruct unique as [|first rest]; [done|].
    destruct Hshape as (im & tail & Hb & _ & Him & _ & Htail). subst batch.
    rewrite Hb, filter_cons_True by (rewrite Him, Hc; eauto).
    simpl. f_equal. clear -Htail.
    induction Htail as [|msg im' l t (_ & Hnone & _) _ IH]; [done|].
    rewrite filter_cons_False; [done|]. rewrite Hnone. by intros [? ?].
Qed.

Lemma caption_on_first_item_only_witness :
  ∃ (c : string) (k : nat) (source : Message),
    let messages := [sample_photo 2 11 "B" (Some "second") [bold];
                     sample_photo 1 10 "A" None [];
                     sample_photo 3 12 "C" (Some "third") []] in
    canonical_messages messages !! k = Some source ∧ caption source = Some c
    ∧ caption_of <$> canonical_batch messages !! 0 = Some (Some c).
Proof.
  destruct (caption_on_first_item_only
              [sample_photo 2 11 "B" (Some "second") [bold];
               sample_photo 1 10 "A" None [];
               sample_photo 3 12 "C" (Some "third") []])
    as (c & k & source & Hk & Hc & _ & _ & _ & H0 & _).
  - vm_compute. apply Exists_cons_tl, Exists_cons_hd. reflexivity.
  - exists c, k, source. cbv zeta. auto.
Defined.

(** C6: a flushed group yields one output item per distinct file
    identifier.  In sorted order the first message carrying an identifier
    is kept and later ones carrying it are dropped, messages without a
    media type are dropped, and canonicalizing the result again changes
    nothing. *)
Theorem deduplication_by_token (messages : list Message) :
  let sorted := sort_messages messages in
  let unique := canonical_messages messages in
  let batch := canonical_batch messages in
  length batch = size (list_to_set (omap file_id_of messages) : gset string)
  ∧ media_of <$> batch = omap file_id_of unique
  ∧ NoDup (media_of <$> batch)
  ∧ (∀ fid, fid ∈ media_of <$> batch ↔ fid ∈ omap file_id_of messages)
  ∧ unique `sublist_of` sorted
  ∧ (∀ msg fid, msg ∈ unique → file_id_of msg = Some fid →
       ∃ l1 l2, sorted = l1 ++ msg :: l2 ∧ (fid ∉ omap file_id_of l1))
  ∧ Forall (λ msg, is_Some (get_media_type msg)) unique
  ∧ (∀ msg, msg ∈ messages → get_media_type msg = None → msg ∉ unique)
  ∧ unique_messages unique = unique
  ∧ canonical_messages unique = unique
  ∧ canonical_batch unique = batch.
Proof.
  intros sorted unique batch.
  assert (canonical_messages unique = unique) as Hidemp.
  { unfold canonical_messages at 1.
    rewrite sort_messages_sorted_id by apply canonical_messages_sorted.
    apply unique_from_idemp. }
  assert (Forall (λ msg, is_Some (get_media_type msg)) unique) as Hsup.
  { eapply Forall_impl; [apply unique_from_supported|].
    intros msg. by rewrite file_id_of_media_type. }
  repeat split.
  - subst batch. rewrite canonical_batch_length.
    unfold canonical_messages. rewrite unique_messages_length.
    by rewrite sort_messages_perm.
  - apply canonical_batch_tokens.
  - subst batch. rewrite canonical_batch_tokens. apply unique_from_NoDup.
  - subst batch. rewrite canonical_batch_tokens.
    unfold canonical_messages, unique_messages. rewrite unique_from_tokens.
    rewrite sort_messages_perm. tauto.
  - subst batch. rewrite canonical_batch_tokens.
    unfold canonical_messages, unique_messages. rewrite unique_from_tokens.
    rewrite sort_messages_perm. set_solver.
  - apply unique_from_sublist.
  - intros msg fid Hin Hfid.
    destruct (unique_from_first _ _ _ _ Hin Hfid) as (l1 & l2 & ? & ? & _). eauto.
  - done.
  - intros msg _ Hnone Hin.
    rewrite Forall_forall in Hsup. destruct (Hsup _ Hin) as [? ?]. congruence.
  - apply unique_from_idemp.
  - done.
  - unfold canonical_batch. by rewrite Hidemp.
Qed.

Lemma deduplication_by_token_witness :
  let messages := [sample_photo 3 12 "A" None []; sample_photo 1 10 "A" None [];
                   sample_text 2 11; sample_photo 4 12 "B" None [];
                   sample_photo 5 13 "B" None []] in
  length (canonical_batch messages) = 2
  ∧ (sample_text 2 11 ∉ canonical_messages messages)
  ∧ ∃ l1 l2, sort_messages messages = l1 ++ sample_photo 4 12 "B" None [] :: l2
             ∧ ("B" ∉ omap file_id_of l1).
Proof.
  intros messages.
  destruct (deduplication_by_token messages)
    as (Hlen & _ & _ & _ & _ & Hfirst & _ & Hdrop & _).
  split; [|split].
  - rewrite Hlen. reflexivity.
  - apply Hdrop; [|reflexivity]. do 2 right. left.
  - apply Hfirst; [|reflexivity]. vm_compute. right. left.
Defined.

(** C7: whatever the arrival order, the deduplicated messages, and with
    them the items of the batch, are in ascending order of timestamp, and
    of message identifier among equal timestamps. *)
Theorem batch_sorted_by_timestamp_then_id (messages : list Message) :
  let unique := canonical_messages messages in
  let batch := canonical_batch messages in
  sort_messages messages ≡ₚ messages
  ∧ StronglySorted msg_le (sort_messages messages)
  ∧ unique `sublist_of` sort_messages messages
  ∧ media_of <$> batch = omap file_id_of unique
  ∧ (∀ (i j : nat) a b, i < j → unique !! i = Some a → unique !! j = Some b →
       (date a < date b)%Z
       ∨ (date a = date b ∧ (message_id a ≤ message_id b)%Z))
  ∧ (∀ messages', messages' ≡ₚ messages → NoDup (sort_key <$> messages) →
       canonical_batch messages' = batch).
Proof.
  intros unique batch. repeat split.
  - apply sort_messages_perm.
  - apply sort_messages_sorted.
  - apply unique_from_sublist.
  - apply canonical_batch_tokens.
  - intros i j a b Hij Ha Hb.
    pose proof (canonical_messages_sorted messages) as Hs. fold unique in Hs.
    rewrite <-(take_drop j unique) in Hs, Ha.
    apply StronglySorted_app in Hs as (Hs & _ & _).
    apply (Hs a b).
    + rewrite lookup_app_l in Ha by (rewrite length_take; apply lookup_lt_Some in Hb; lia).
      by eapply list_elem_of_lookup_2.
    + apply list_elem_of_lookup. exists 0. by rewrite lookup_drop, Nat.add_0_r.
  - intros messages' Hperm Hkeys. subst batch.
    unfold canonical_batch, canonical_messages.
    by rewrite (sort_messages_arrival_order _ _ Hperm Hkeys).
Qed.

Lemma batch_sorted_by_timestamp_then_id_witness :
  let arrived := [sample_photo 3 11 "C" None []; sample_photo 2 11 "B" None [];
                  sample_photo 1 12 "A" None []] in
  let reordered := [sample_photo 1 12 "A" None []; sample_photo 3 11 "C" None [];
                    sample_photo 2 11 "B" None []] in
  canonical_batch reordered = canonical_batch arrived
  ∧ media_of <$> canonical_batch arrived = ["B"; "C"; "A"].
Proof.
  split; [|reflexivity].
  apply (batch_sorted_by_timestamp_then_id
           [sample_photo 3 11 "C" None []; sample_photo 2 11 "B" None [];
            sample_photo 1 12 "A" None []]).
  - apply Permutation_cons_append.
  - vm_compute. repeat constructor; intros H;
      repeat (apply elem_of_cons in H as [H|H]; [discriminate H|]);
      by apply elem_of_nil in H.
Defined.

(** C10: the caption entities of output position 0 are those of the
    first deduplicated message whenever the group has a caption, also when
    the caption text is that of a later message. *)
Theorem caption_entities_of_first_message (messages : list Message)
    (first : Message) (rest : list Message) (c : string) :
  canonical_messages messages = first :: rest →
  group_caption (first :: rest) = Some c →
  ∃ im, canonical_batch messages !! 0 = Some im
        ∧ caption_of im = Some c
        ∧ caption_entities_of im = Some (caption_entities first)
        ∧ (truthy_str (caption first) = false →
           ∃ (k : nat) later, rest !! k = Some later ∧ caption later = Some c).
Proof.
  intros Hunique Hc.
  pose proof (canonical_batch_shape messages) as Hshape. rewrite Hunique in Hshape.
  destruct Hshape as (im & tail & Hb & _ & Hcap & Hents & _).
  exists im. rewrite Hb. repeat split; [congruence| |].
  - rewrite Hents, Hc.
    destruct (group_caption_first _ _ Hc) as (_ & _ & _ & _ & Hne & _).
    simpl. destruct (String.eqb_spec c EmptyString); done.
  - intros Hfirst. simpl in Hc. rewrite Hfirst in Hc.
    destruct (group_caption_first _ _ Hc) as (k & later & ? & ? & _). eauto.
Qed.

Lemma caption_entities_of_first_message_witness :
  let first := sample_photo 1 10 "A" None [] in
  let later := sample_photo 2 11 "B" (Some "text") [bold] in
  ∃ im, canonical_batch [later; first] !! 0 = Some im
        ∧ caption_of im = Some "text"
        ∧ caption_entities_of im = Some (caption_entities first)
        ∧ ∃ (k : nat) source, [later] !! k = Some source ∧ caption source = Some "text".
Proof.
  destruct (caption_entities_of_first_message
              [sample_photo 2 11 "B" (Some "text") [bold];
               sample_photo 1 10 "A" None []]
              (sample_photo 1 10 "A" None [])
              [sample_photo 2 11 "B" (Some "text") [bold]] "text"
              eq_refl eq_refl) as (im & H0 & Hc & He & Hlater).
  exists im. repeat split; [exact H0|exact Hc|exact He|].
  apply Hlater. reflexivity.
Defined.

(** The same group, computed: the entities [[bold]] of the message that
    supplies the caption text are not the ones sent. *)
Example caption_of_later_message_loses_entities :
  canonical_batch [sample_photo 2 11 "B" (Some "text") [bold];
                   sample_photo 1 10 "A" None []]
  = [InputMediaPhoto "A" (Some "text") (Some []); InputMediaPhoto "B" None None].
Proof. reflexivity. Qed.


(** ** Group aggregator *)

Section Aggregator.

Implicit Types (fw : Forwarder) (g : string) (tr : Transport).

Lemma pop_group_erased g fw : erased g (pop_group g fw).2.
Proof.
  unfold erased, pop_group. simpl.
  rewrite !lookup_delete_eq. set_solver.
Qed.

Lemma cancel_timer_fields g fw :
  media_groups (cancel_timer g fw) = media_groups fw
  ∧ media_group_counts (cancel_timer g fw) = media_group_counts fw
  ∧ scheduled_media_groups (cancel_timer g fw) = scheduled_media_groups fw
  ∧ config (cancel_timer g fw) = config fw.
Proof. unfold cancel_timer. by case_bool_decide. Qed.

Lemma cancel_timer_buffer_jobs g (message : Message) fw :
  job_queue (cancel_timer g (buffer_message g message fw))
  = job_queue (cancel_timer g fw).
Proof. unfold cancel_timer, buffer_message. simpl. by case_bool_decide. Qed.

Lemma buffered_count g (message : Message) fw :
  default 0 (media_group_counts (cancel_timer g (buffer_message g message fw)) !! g)
  = default 0 (media_group_counts fw !! g) + 1.
Proof.
  destruct (cancel_timer_fields g (buffer_message g message fw)) as (_ & -> & _).
  simpl. by rewrite lookup_insert_eq.
Qed.

(** The state a handler leaves behind for a grouped message. *)
Lemma handle_group_state tr g (message : Message) fw :
  (handle_group tr g message fw).1.1 =
    let fw1 := cancel_timer g (buffer_message g message fw) in
    if bool_decide (MAX_MEDIA_GROUP_SIZE ≤ default 0 (media_group_counts fw !! g) + 1)
    then (pop_group g fw1).2 else reset_timer g fw1.
Proof.
  unfold handle_group. cbv zeta. rewrite buffered_count.
  case_bool_decide; [|done].
  pose proof (process_media_group_state tr g
                (cancel_timer g (buffer_message g message fw))) as Hst.
  pose proof (process_media_group_returns tr g
                (cancel_timer g (buffer_message g message fw))) as Hret.
  destruct (process_media_group _ _ _) as [[fw2 obs] c]. simpl in *.
  by subst.
Qed.

(** The handler's run for a grouped message that passes the gate. *)
Lemma forward_message_grouped tr (update : Update) fw g :
  Some (effective_chat_id update) = source_id (config fw) →
  truthy_int (destination_id (config fw)) = true →
  validate_config (config fw) = Return tt →
  media_group_id (effective_message update) = Some g → g ≠ EmptyString →
  forward_message tr update fw = handle_group tr g (effective_message update) fw.
Proof.
  intros Hsrc Hdst Hval Hg Hne. unfold forward_message.
  rewrite bool_decide_eq_true_2 by done. rewrite Hdst, Hval. simpl.
  rewrite Hg. simpl. by destruct (String.eqb_spec g EmptyString).
Qed.

(** A handler either leaves the state alone or handles a grouped message. *)
Lemma forward_message_state tr (update : Update) fw :
  (forward_message tr update fw).1.1 = fw
  ∨ ∃ g, (forward_message tr update fw).1.1
         = (handle_group tr g (effective_message update) fw).1.1.
Proof.
  unfold forward_message. repeat case_match; eauto.
Qed.

(** *** The three containers *)

Lemma buffers_consistent_ext fw fw' :
  media_groups fw' = media_groups fw →
  media_group_counts fw' = media_group_counts fw →
  scheduled_media_groups fw' = scheduled_media_groups fw →
  buffers_consistent fw → buffers_consistent fw'.
Proof. intros H1 H2 H3 [? ? ?]. constructor; by rewrite ?H1, ?H2, ?H3. Qed.

Lemma consistent_count fw g :
  buffers_consistent fw →
  default 0 (media_group_counts fw !! g)
  = length (default [] (media_groups fw !! g)).
Proof.
  intros Hc. rewrite (buffer_counted _ Hc).
  by destruct (media_groups fw !! g).
Qed.

Lemma pop_group_buffers g fw :
  buffers_consistent fw → buffers_consistent (pop_group g fw).2.
Proof.
  intros [Hbs Hbc Hbn]. constructor; simpl.
  - intros g'. rewrite dom_delete_L. specialize (Hbs g'). set_solver.
  - intros g'. destruct (decide (g' = g)) as [->|Hne].
    + by rewrite !lookup_delete_eq.
    + by rewrite !lookup_delete_ne.
  - intros g'. destruct (decide (g' = g)) as [->|Hne].
    + by rewrite lookup_delete_eq.
    + by rewrite lookup_delete_ne.
Qed.

Lemma flush_after_buffer_fields g (message : Message) fw :
  let fw' := (pop_group g (cancel_timer g (buffer_message g message fw))).2 in
  media_groups fw' = media_groups (pop_group g fw).2
  ∧ media_group_counts fw' = media_group_counts (pop_group g fw).2
  ∧ scheduled_media_groups fw' = scheduled_media_groups (pop_group g fw).2
  ∧ job_queue fw' = job_queue (cancel_timer g fw).
Proof.
  unfold pop_group, cancel_timer, buffer_message. simpl.
  case_bool_decide; simpl; by rewrite !delete_insert_eq.
Qed.

Lemma flush_after_buffer_buffers g (message : Message) fw :
  buffers_consistent fw →
  buffers_consistent (pop_group g (cancel_timer g (buffer_message g message fw))).2.
Proof.
  intros Hc.
  destruct (flush_after_buffer_fields g message fw) as (H1 & H2 & H3 & _).
  eapply buffers_consistent_ext; [exact H1|exact H2|exact H3|].
  by apply pop_group_buffers.
Qed.

Lemma reset_after_buffer_buffers g (message : Message) fw :
  buffers_consistent fw →
  buffers_consistent (reset_timer g (cancel_timer g (buffer_message g message fw))).
Proof.
  intros Hc. pose proof (consistent_count fw g Hc) as Hcount.
  destruct Hc as [Hbs Hbc Hbn].
  destruct (cancel_timer_fields g (buffer_message g message fw))
    as (Hmg & Hct & Hsc & Hcf).
  constructor; unfold reset_timer; cbn [media_groups media_group_counts
    scheduled_media_groups]; rewrite ?Hmg, ?Hct, ?Hsc; simpl.
  - intros g'. rewrite dom_insert_L. specialize (Hbs g'). set_solver.
  - intros g'. destruct (decide (g' = g)) as [->|Hne].
    + rewrite !lookup_insert_eq. simpl. rewrite Hcount, length_app. done.
    + by rewrite !lookup_insert_ne.
  - intros g'. destruct (decide (g' = g)) as [->|Hne].
    + rewrite lookup_insert_eq. intros [= Heq]. by destruct (default [] _).
    + by rewrite lookup_insert_ne.
Qed.

Lemma handle_group_buffers tr g (message : Message) fw :
  buffers_consistent fw → buffers_consistent (handle_group tr g message fw).1.1.
Proof.
  intros Hc. rewrite handle_group_state. cbv zeta.
  destruct (bool_decide (MAX_MEDIA_GROUP_SIZE ≤ _)).
  - by apply flush_after_buffer_buffers.
  - by apply reset_after_buffer_buffers.
Qed.

Lemma step_buffers fw fw' : any_step fw fw' → buffers_consistent fw → buffers_consistent fw'.
Proof.
  intros [Hstep|Hlate] Hc.
  - destruct Hstep as [tr update fw|tr g before after fw Hq|c fw].
    + destruct (forward_message_state tr update fw) as [->|[g ->]]; [done|].
      by apply handle_group_buffers.
    + rewrite process_media_group_state.
      apply pop_group_buffers.
      by apply (buffers_consistent_ext fw (job_fired before after fw)).
    + by apply (buffers_consistent_ext fw (set_config c fw)).
  - destruct Hlate as [tr g fw].
    rewrite process_media_group_state. by apply pop_group_buffers.
Qed.

Lemma init_consistent (c : Config) : consistent (init c).
Proof.
  constructor; [constructor|..]; simpl.
  - intros g. rewrite dom_empty_L. set_solver.
  - intros g. by rewrite !lookup_empty.
  - intros g. by rewrite lookup_empty.
  - intros g. rewrite elem_of_nil. set_solver.
  - constructor.
Qed.

Lemma rtc_invariant {A : Type} (R : relation A) (P : A → Prop) :
  (∀ a b, R a b → P a → P b) → ∀ a b, rtc R a b → P a → P b.
Proof. intros Hstep a b. induction 1; eauto. Qed.

Lemma reachable_buffers fw : reachable fw → buffers_consistent fw.
Proof.
  intros [c Hsteps].
  eapply (rtc_invariant any_step); [apply step_buffers|done|apply init_consistent].
Qed.

(** *** The job queue *)

Lemma cancel_timer_jobs g fw :
  consistent fw →
  NoDup (job_queue (cancel_timer g fw))
  ∧ ∀ g', g' ∈ job_queue (cancel_timer g fw) ↔ g' ∈ job_queue fw ∧ g' ≠ g.
Proof.
  intros [_ Hjs Hju]. unfold cancel_timer.
  case_bool_decide as Hin; simpl.
  - split; [by apply NoDup_filter|].
    intros g'. by rewrite list_elem_of_filter, (comm and).
  - split; [done|]. intros g'. split; [|tauto].
    intros Hg'. split; [done|]. intros ->. by apply Hin, Hjs.
Qed.

Lemma flush_after_buffer_consistent g (message : Message) fw :
  consistent fw →
  consistent (pop_group g (cancel_timer g (buffer_message g message fw))).2.
Proof.
  intros Hc.
  destruct (cancel_timer_jobs g fw Hc) as [Hnd Hjobs].
  destruct (flush_after_buffer_fields g message fw) as (_ & _ & H3 & H4).
  constructor.
  - apply flush_after_buffer_buffers, Hc.
  - intros g'. rewrite H3, H4, Hjobs. simpl.
    pose proof (jobs_scheduled _ Hc g'). set_solver.
  - by rewrite H4.
Qed.

Lemma reset_after_buffer_consistent g (message : Message) fw :
  consistent fw →
  consistent (reset_timer g (cancel_timer g (buffer_message g message fw))).
Proof.
  intros Hc.
  destruct (cancel_timer_jobs g fw Hc) as [Hnd Hjobs].
  pose proof (cancel_timer_buffer_jobs g message fw) as Hq.
  destruct (cancel_timer_fields g (buffer_message g message fw))
    as (_ & _ & Hsc & _).
  constructor.
  - apply reset_after_buffer_buffers, Hc.
  - intros g'. unfold reset_timer. cbn [job_queue scheduled_media_groups].
    rewrite Hq, Hsc. simpl.
    rewrite elem_of_app, Hjobs, list_elem_of_singleton.
    pose proof (jobs_scheduled _ Hc g'). destruct (decide (g' = g)); set_solver.
  - unfold reset_timer. cbn [job_queue]. rewrite Hq.
    apply NoDup_app. split; [done|]. split; [|apply NoDup_singleton].
    intros g' Hin ->%list_elem_of_singleton. apply Hjobs in Hin. tauto.
Qed.

Lemma forward_message_consistent tr (update : Update) fw :
  consistent fw → consistent (forward_message tr update fw).1.1.
Proof.
  intros Hc.
  destruct (forward_message_state tr update fw) as [->|[g ->]]; [done|].
  rewrite handle_group_state. cbv zeta.
  destruct (bool_decide (MAX_MEDIA_GROUP_SIZE ≤ _)).
  - by apply flush_after_buffer_consistent.
  - by apply reset_after_buffer_consistent.
Qed.

Lemma timer_flush_consistent tr g (before after : list string) fw :
  consistent fw → job_queue fw = before ++ g :: after →
  consistent (process_media_group tr g (job_fired before after fw)).1.1.
Proof.
  intros Hc Hq. rewrite process_media_group_state.
  pose proof (jobs_unique _ Hc) as Hnd. rewrite Hq in Hnd.
  apply NoDup_app in Hnd as (Hb & Hba & Ha).
  apply NoDup_cons in Ha as [Hga Ha].
  constructor.
  - apply pop_group_buffers.
    apply (buffers_consistent_ext fw (job_fired before after fw)); [done..|apply Hc].
  - intros g'. unfold pop_group, job_fired. simpl.
    pose proof (jobs_scheduled _ Hc g') as Hjs. rewrite Hq in Hjs.
    rewrite elem_of_app, elem_of_cons in Hjs. rewrite elem_of_app.
    destruct (decide (g' = g)) as [->|Hne]; [|set_solver].
    split; [|set_solver]. intros [Hin|Hin]; [|done].
    destruct (Hba g Hin). by left.
  - unfold pop_group, job_fired. simpl.
    apply NoDup_app. repeat split; [done| |done].
    intros x Hx Hxa. apply (Hba x Hx). by right.
Qed.

Lemma set_config_consistent (c : Config) fw :
  consistent fw → consistent (set_config c fw).
Proof.
  intros [Hb ? ?]. constructor; [|done..].
  by apply (buffers_consistent_ext fw (set_config c fw)).
Qed.

Lemma step_consistent fw fw' : step fw fw' → consistent fw → consistent fw'.
Proof.
  destruct 1; intros Hc.
  - by apply forward_message_consistent.
  - by apply timer_flush_consistent.
  - by apply set_config_consistent.
Qed.

(** As long as flushes come from handlers and queued jobs, the queue
    holds exactly one job for every scheduled group. *)
Lemma reachable_by_queue_consistent fw : reachable_by_queue fw → consistent fw.
Proof.
  intros [c Hsteps].
  eapply (rtc_invariant step); [apply step_consistent|done|apply init_consistent].
Qed.

Lemma reachable_by_queue_reachable fw : reachable_by_queue fw → reachable fw.
Proof.
  intros [c Hsteps]. exists c.
  eapply rtc_subrel; [|done]. intros a b Hab. by left.
Qed.

End Aggregator.

(** ** Group aggregator: the claims *)

Lemma sample_forwarder_consistent (messages : list Message) :
  messages ≠ [] → consistent (sample_forwarder messages).
Proof.
  intros Hne. constructor; [constructor|..]; simpl.
  - intros g. rewrite dom_singleton_L. set_solver.
  - intros g. destruct (decide (g = "album")) as [->|Hg].
    + by rewrite !lookup_singleton_eq.
    + by rewrite !lookup_singleton_ne.
  - intros g. destruct (decide (g = "album")) as [->|Hg].
    + rewrite lookup_singleton_eq. congruence.
    + by rewrite lookup_singleton_ne.
  - intros g. rewrite list_elem_of_singleton. set_solver.
  - apply NoDup_singleton.
Qed.

(** C8: when the appended message brings the count of its group to the
    maximum, the handler itself flushes the group: the send of the batch
    built from the whole buffer is part of the handler's own run, the
    group's entries are gone when it returns, and no timer job for the
    group is left or added. *)
Theorem capacity_flush_is_immediate (tr : Transport) (update : Update)
    (fw : Forwarder) (g : string) :
  let message := effective_message update in
  let buffered := default [] (media_groups fw !! g) ++ [message] in
  let batch := canonical_batch buffered in
  let out := forward_message tr update fw in
  consistent fw →
  Some (effective_chat_id update) = source_id (config fw) →
  truthy_int (destination_id (config fw)) = true →
  validate_config (config fw) = Return tt →
  media_group_id message = Some g → g ≠ EmptyString →
  MAX_MEDIA_GROUP_SIZE ≤ default 0 (media_group_counts fw !! g) + 1 →
  out.2 = Return tt
  ∧ erased g out.1.1
  ∧ (g ∉ job_queue out.1.1)
  ∧ (∀ g', g' ∈ job_queue out.1.1 → g' ∈ job_queue fw)
  ∧ (∀ g', g' ≠ g → media_groups out.1.1 !! g' = media_groups fw !! g')
  ∧ (batch ≠ [] →
     ∃ k : nat, out.1.2 !! k
       = Some (out.1.1, Await (SendMediaGroup (destination_id (config fw)) batch) None))
  ∧ last out.1.2 = Some (out.1.1, Log INFO (ProcessingImmediately g)).
Proof.
  intros message buffered batch out Hc Hsrc Hdst Hval Hg Hne Hfull.
  subst out. rewrite (forward_message_grouped _ _ _ g) by done. fold message.
  set (fw1 := cancel_timer g (buffer_message g message fw)).
  assert (default [] (media_groups fw1 !! g) = buffered) as Hbuf.
  { subst fw1. destruct (cancel_timer_fields g (buffer_message g message fw)) as (-> & _).
    simpl. by rewrite lookup_insert_eq. }
  assert (config fw1 = config fw) as Hcfg.
  { subst fw1. by destruct (cancel_timer_fields g (buffer_message g message fw))
      as (_ & _ & _ & ->). }
  unfold handle_group. cbv zeta. fold fw1.
  rewrite bool_decide_eq_true_2 by (subst fw1; rewrite buffered_count; done).
  pose proof (process_media_group_returns tr g fw1) as Hret.
  pose proof (process_media_group_state tr g fw1) as Hpst.
  assert (batch ≠ [] →
    ∃ k : nat, (process_media_group tr g fw1).1.2 !! k
      = Some ((pop_group g fw1).2,
              Await (SendMediaGroup (destination_id (config fw)) batch) None)) as Hsend.
  { intros Hbatch. rewrite process_media_group_eq. cbv zeta.
    rewrite Hbuf, Hcfg. fold batch. destruct batch as [|x xs]; [done|].
    cbn [fst snd]. change (seq 0 MAX_RETRIES) with [0; 1; 2].
    destruct (send_loop_head g (SendMediaGroup (destination_id (config fw)) (x :: xs))
                (length (x :: xs))
                (send_media_group tr (destination_id (config fw)) (x :: xs)) 0 [1; 2])
      as [tail ->].
    exists (length (flush_warning g (sort_messages buffered))).
    unfold stamp. by rewrite list_lookup_fmap, lookup_app_r, Nat.sub_diag. }
  destruct (process_media_group tr g fw1) as [[fw2 obs] c].
  cbn [fst snd] in Hret, Hpst, Hsend. subst c fw2. cbn [fst snd].
  destruct (cancel_timer_jobs g fw Hc) as [_ Hjobs].
  destruct (flush_after_buffer_fields g message fw) as (_ & _ & _ & Hq).
  cbv zeta in Hq. fold fw1 in Hq.
  split; [done|]. split; [apply pop_group_erased|].
  split; [rewrite Hq, Hjobs; tauto|].
  split; [intros g'; rewrite Hq, Hjobs; tauto|].
  split; [|split].
  - intros g' Hg'. unfold pop_group. simpl. rewrite lookup_delete_ne by done.
    subst fw1. destruct (cancel_timer_fields g (buffer_message g message fw)) as (-> & _).
    simpl. by rewrite lookup_insert_ne.
  - intros Hbatch. destruct (Hsend Hbatch) as [k Hk].
    exists k. rewrite lookup_app_l; [done|]. by eapply lookup_lt_Some.
  - by rewrite last_snoc.
Qed.

Lemma capacity_flush_is_immediate_witness :
  let out := forward_message working_transport tenth_update
               (sample_forwarder nine_photos) in
  erased "album" out.1.1
  ∧ ("album" ∉ job_queue out.1.1)
  ∧ ∃ k : nat, out.1.2 !! k
      = Some (out.1.1,
              Await (SendMediaGroup (Some (-200)%Z)
                       [InputMediaPhoto "A" (Some "last") (Some []);
                        InputMediaPhoto "B" None None]) None).
Proof.
  destruct (capacity_flush_is_immediate working_transport tenth_update
              (sample_forwarder nine_photos) "album")
    as (_ & Herased & Hjob & _ & _ & Hsend & _).
  - by apply sample_forwarder_consistent.
  - reflexivity.
  - reflexivity.
  - reflexivity.
  - reflexivity.
  - done.
  - vm_compute. lia.
  - repeat split; [apply Herased..|exact Hjob|].
    apply Hsend. by vm_compute.
Defined.

(** C9: in every state reached by handlers, flushes and configuration
    commands, a group is buffered exactly when it is marked as scheduled
    and has a count.  A flush removes the three entries of its group before
    its first effect, so every send of the flush is observed with the group
    gone, and a message of that group handled in such a state starts a new
    buffer holding that message alone, with count 1 and a fresh timer. *)
Theorem pending_group_lifecycle :
  (∀ fw, reachable fw →
     ∀ g, g ∈ dom (media_groups fw)
          ↔ g ∈ scheduled_media_groups fw ∧ g ∈ dom (media_group_counts fw))
  ∧ (∀ (tr : Transport) (g : string) (fw : Forwarder),
       erased g (process_media_group tr g fw).1.1
       ∧ Forall (λ o : observation, o.1 = (process_media_group tr g fw).1.1)
           (process_media_group tr g fw).1.2)
  ∧ (∀ (tr : Transport) (update : Update) (fw : Forwarder) (g : string),
       erased g fw →
       Some (effective_chat_id update) = source_id (config fw) →
       truthy_int (destination_id (config fw)) = true →
       validate_config (config fw) = Return tt →
       media_group_id (effective_message update) = Some g → g ≠ EmptyString →
       let fw' := (forward_message tr update fw).1.1 in
       media_groups fw' !! g = Some [effective_message update]
       ∧ media_group_counts fw' !! g = Some 1
       ∧ g ∈ scheduled_media_groups fw'
       ∧ g ∈ job_queue fw').
Proof.
  split; [|split].
  - intros fw Hreach g. pose proof (reachable_buffers _ Hreach) as Hc. split.
    + intros Hg. split; [by apply (buffer_scheduled _ Hc)|].
      apply elem_of_dom. rewrite (buffer_counted _ Hc).
      apply elem_of_dom in Hg as [? ->]. eauto.
    + intros [Hg _]. by apply (buffer_scheduled _ Hc).
  - intros tr g fw. split.
    + rewrite process_media_group_state. apply pop_group_erased.
    + rewrite process_media_group_state, process_media_group_eq. cbv zeta.
      destruct (canonical_batch _); cbn [fst snd]; unfold stamp;
        apply Forall_fmap, Forall_true; done.
  - intros tr update fw g (Hmg & Hct & Hsc) Hsrc Hdst Hval Hg Hne fw'. subst fw'.
    rewrite (forward_message_grouped _ _ _ g), handle_group_state by done.
    cbv zeta. rewrite Hct.
    rewrite bool_decide_eq_false_2 by (unfold MAX_MEDIA_GROUP_SIZE; simpl; lia).
    destruct (cancel_timer_fields g (buffer_message g (effective_message update) fw))
      as (Hf1 & Hf2 & _).
    unfold reset_timer.
    cbn [media_groups media_group_counts scheduled_media_groups job_queue].
    rewrite Hf1, Hf2. simpl. rewrite !lookup_insert_eq, Hmg, Hct.
    repeat split; [set_solver..].
Qed.

Lemma pending_group_lifecycle_witness :
  let first := (forward_message working_transport tenth_update (init sample_config)).1.1 in
  let flushed :=
    (process_media_group working_transport "album" (sample_forwarder nine_photos)).1.1 in
  let restarted := (forward_message working_transport tenth_update flushed).1.1 in
  ("album" ∈ dom (media_groups first)
   ↔ "album" ∈ scheduled_media_groups first ∧ "album" ∈ dom (media_group_counts first))
  ∧ erased "album" flushed
  ∧ media_groups restarted !! "album" = Some [effective_message tenth_update]
  ∧ media_group_counts restarted !! "album" = Some 1.
Proof.
  intros first flushed restarted.
  destruct pending_group_lifecycle as (Hinv & Hflush & Hnew).
  split; [|split].
  - apply Hinv. exists sample_config. apply rtc_once. left. apply step_message.
  - apply Hflush.
  - destruct (Hnew working_transport tenth_update flushed "album")
      as (H1 & H2 & _); [apply Hflush|reflexivity..|done|].
    split; assumption.
Defined.

(** * Further properties of the code *)

(** Validation passes exactly on two distinct negative identifiers. *)
Lemma validate_config_returns (c : Config) :
  validate_config c = Return tt
  ↔ ∃ s d, source_id c = Some s ∧ destination_id c = Some d
           ∧ (s < 0)%Z ∧ (d < 0)%Z ∧ s ≠ d.
Proof.
  unfold validate_config. split.
  - case_bool_decide as Heq; [done|].
    destruct (source_id c) as [s|]; simpl; [|done].
    case_bool_decide as Hs; simpl; [|done].
    destruct (destination_id c) as [d|]; simpl; [|done].
    case_bool_decide as Hd; simpl; [|done].
    intros _. exists s, d. split_and!; [done..|congruence].
  - intros (s & d & -> & -> & Hs & Hd & Hne). simpl.
    rewrite bool_decide_eq_false_2 by congruence.
    by rewrite !bool_decide_eq_true_2 by done.
Qed.

(** ** The two retry loops, for any operation *)

Section RetryLoops.

Context {R : Type}.
Implicit Types (op : nat → completion R) (call : transport_call).

Lemma retry_operation_call_list call op :
  ∃ n : nat, 1 ≤ n ≤ MAX_RETRIES ∧ calls (retry_operation call op).1 = replicate n call.
Proof.
  unfold MAX_RETRIES.
  destruct (op 0) as [r0|e0] eqn:H0.
  { exists 1. rewrite (retry_operation_first _ _ _ H0). split; [lia|done]. }
  destruct (op 1) as [r1|e1] eqn:H1.
  { exists 2. rewrite (retry_operation_second _ _ _ _ H0 H1). split; [lia|done]. }
  exists 3. split; [lia|]. destruct (op 2) as [r2|e2] eqn:H2.
  - by rewrite (retry_operation_third _ _ _ _ _ H0 H1 H2).
  - by rewrite (retry_operation_exhausted _ _ _ _ _ H0 H1 H2).
Qed.

(** X1: [retry_operation] awaits the wrapped call once, twice or three times,
    under the timeouts 30, 40 and 50, and awaits nothing else. *)
Theorem retry_operation_calls call op :
  ∃ n : nat,
    1 ≤ n ≤ MAX_RETRIES
    ∧ calls (retry_operation call op).1 = replicate n call
    ∧ omap await_timeout (retry_operation call op).1
      = Some <$> take n [30; 40; 50]%Z.
Proof.
  destruct (op 0) as [r0|e0] eqn:H0.
  { exists 1. rewrite (retry_operation_first _ _ _ H0).
    unfold MAX_RETRIES. split; [lia|done]. }
  destruct (op 1) as [r1|e1] eqn:H1.
  { exists 2. rewrite (retry_operation_second _ _ _ _ H0 H1).
    unfold MAX_RETRIES. split; [lia|done]. }
  exists 3. destruct (op 2) as [r2|e2] eqn:H2.
  - rewrite (retry_operation_third _ _ _ _ _ H0 H1 H2). by split; [unfold MAX_RETRIES; lia|].
  - rewrite (retry_operation_exhausted _ _ _ _ _ H0 H1 H2).
    by split; [unfold MAX_RETRIES; lia|].
Qed.

(** X2: The value [retry_operation] returns is the value of the first or of
    the second attempt.  When both fail, the third attempt is made, and the
    call raises whatever that attempt does.  Falling off the loop does not
    occur. *)
Theorem retry_operation_result call op :
  (∀ r, (retry_operation call op).2 = Return (Some r)
        ↔ op 0 = Return r ∨ ((∃ e0, op 0 = Raise e0) ∧ op 1 = Return r))
  ∧ (retry_operation call op).2 ≠ Return None
  ∧ ((∃ e, (retry_operation call op).2 = Raise e)
     ↔ (∃ e0, op 0 = Raise e0) ∧ (∃ e1, op 1 = Raise e1))
  ∧ ((∃ e0, op 0 = Raise e0) → (∃ e1, op 1 = Raise e1) →
     (retry_operation call op).2 = Raise no_active_exception
     ∧ length (calls (retry_operation call op).1) = 3).
Proof.
  destruct (op 0) as [r0|e0] eqn:H0.
  { rewrite (retry_operation_first _ _ _ H0). cbn [snd].
    repeat split; try naive_solver. }
  destruct (op 1) as [r1|e1] eqn:H1.
  { rewrite (retry_operation_second _ _ _ _ H0 H1). cbn [snd].
    repeat split; try naive_solver. }
  destruct (op 2) as [r2|e2] eqn:H2.
  - rewrite (retry_operation_third _ _ _ _ _ H0 H1 H2). cbn [fst snd].
    repeat split; try naive_solver.
  - rewrite (retry_operation_exhausted _ _ _ _ _ H0 H1 H2). cbn [fst snd].
    repeat split; try naive_solver.
Qed.

(** X3: The inline loop of the batch path stops at the first send that
    succeeds: it has sent once per attempt up to that one, slept once per
    failure before it, and ends by logging the success. *)
Theorem send_loop_stops_at_success (g : string) call (items : nat) op
    (i : nat) (sent : R) :
  i < MAX_RETRIES → (∀ j, j < i → ∃ e, op j = Raise e) → op i = Return sent →
  let run := send_loop g call items op (seq 0 MAX_RETRIES) in
  run.2 = Return tt
  ∧ calls run.1 = replicate (S i) call
  ∧ length (filter (λ ev, is_sleep ev = true) run.1) = i
  ∧ last run.1 = Some (Log INFO (ForwardedMediaGroup g items)).
Proof.
  intros Hi Hprev Hop run. subst run.
  assert (i = 0 ∨ i = 1 ∨ i = 2) as [-> | [-> | ->]] by (unfold MAX_RETRIES in Hi; lia).
  - cbn. rewrite Hop. done.
  - destruct (Hprev 0) as [e0 H0]; [lia|]. cbn. rewrite H0, Hop. done.
  - destruct (Hprev 0) as [e0 H0]; [lia|]. destruct (Hprev 1) as [e1 H1]; [lia|].
    cbn. rewrite H0, H1, Hop. done.
Qed.

(** The inline loop sends at most three times and always returns. *)
Lemma send_loop_bounded (g : string) call (items : nat) op :
  let run := send_loop g call items op (seq 0 MAX_RETRIES) in
  ∃ n : nat, 1 ≤ n ≤ MAX_RETRIES
    ∧ calls run.1 = replicate n call
    ∧ omap await_timeout run.1 = replicate n None
    ∧ run.2 = Return tt.
Proof.
  cbn. destruct (op 0); [by exists 1; unfold MAX_RETRIES; split; [lia|]|].
  destruct (op 1); [by exists 2; unfold MAX_RETRIES; split; [lia|]|].
  destruct (op 2); by exists 3; unfold MAX_RETRIES; split; [lia|].
Qed.

End RetryLoops.

Lemma send_loop_stops_at_success_witness :
  calls (send_loop "album" (SendMediaGroup (Some (-200)%Z) []) 0
           (λ i, if bool_decide (i = 2) then Return [7%Z] else Raise (TimeoutError EmptyString))
           (seq 0 MAX_RETRIES)).1
  = replicate 3 (SendMediaGroup (Some (-200)%Z) []).
Proof.
  apply (send_loop_stops_at_success "album" _ 0 _ 2 [7%Z]).
  - unfold MAX_RETRIES. lia.
  - intros j Hj. exists (TimeoutError EmptyString).
    destruct j as [|[|j]]; [reflexivity..|lia].
  - reflexivity.
Defined.

(** ** Single messages: [get_media_input] and [forward_single_message] *)

Section SingleMessages.

Implicit Types (message : Message) (tr : Transport) (fw : Forwarder).

(** X4: [get_media_input] builds an item exactly for the messages that have a
    media type.  The item refers to the file the duplicate check of the
    group path reads, carries the caption as it is, and never carries
    caption entities. *)
Theorem get_media_input_item message :
  (get_media_input message = None ↔ get_media_type message = None)
  ∧ ∀ im, get_media_input message = Some im →
      file_id_of message = Some (media_of im)
      ∧ caption_of im = caption message
      ∧ caption_entities_of im = None.
Proof.
  unfold get_media_input, file_id_of, get_media_type.
  destruct (photo message) as [|p ps] eqn:Hp.
  - simpl. destruct (video message), (document message), (audio message); simpl;
      (split; [split; congruence|]); intros im [= <-]; done.
  - destruct (last (p :: ps)) eqn:Hlast; [|by apply last_None in Hlast].
    split; [split; congruence|]. intros im [= <-]. done.
Qed.

Lemma has_media_false message :
  has_media message = false → get_media_input message = None.
Proof.
  unfold has_media, get_media_input. intros H.
  repeat (apply orb_false_iff in H as [H ?]).
  apply negb_false_iff, bool_decide_eq_true in H. rewrite H.
  destruct (video message); [by rewrite bool_decide_eq_true_2 in * by eauto|].
  destruct (document message); [by rewrite bool_decide_eq_true_2 in * by eauto|].
  destruct (audio message); [by rewrite bool_decide_eq_true_2 in * by eauto|].
  done.
Qed.

Lemma retry_loop_outcome_of {R : Type} (call : transport_call) (op : nat → completion R)
    (attempts : list nat) (errors : gmap string nat) :
  (retry_loop call (λ i, outcome_of (op i)) attempts errors).1
  = (retry_loop call op attempts errors).1
  ∧ outcome_of (retry_loop call (λ i, outcome_of (op i)) attempts errors).2
    = outcome_of (retry_loop call op attempts errors).2.
Proof.
  revert errors. induction attempts as [|a rest IH]; intros errors; [done|].
  cbn [retry_loop]. destruct (op a) as [r|e]; cbn [outcome_of].
  - by destruct (finally_raises a errors).
  - destruct (on_failure a e errors) as [errors' delay].
    destruct (finally_raises a errors'); [done|].
    specialize (IH errors').
    destruct (retry_loop call (λ i, outcome_of (op i)) rest errors'),
      (retry_loop call op rest errors'). simpl in *.
    destruct IH as [-> ?]. done.
Qed.

Lemma log_failure_outcome_of {R : Type} message (call : transport_call)
    (op : nat → completion R) :
  log_failure message (retry_operation call op)
  = log_failure message (retry_operation call (λ i, outcome_of (op i))).
Proof.
  unfold log_failure, retry_operation.
  destruct (retry_loop_outcome_of call op (seq 0 MAX_RETRIES) ∅) as [-> Hc].
  destruct (retry_loop call (λ i, outcome_of (op i)) _ _).2,
    (retry_loop call op _ _).2; simpl in Hc; congruence.
Qed.

(** The route of a single message is decided by [get_media_input] alone. *)
Lemma forward_single_message_eq tr message fw :
  forward_single_message tr message fw =
    let call := single_call (destination_id (config fw)) message in
    log_failure message (retry_operation call (outcome tr call)).
Proof.
  unfold forward_single_message, single_call. cbv zeta.
  destruct (has_media message) eqn:Hm.
  - destruct (get_media_input message); apply log_failure_outcome_of.
  - rewrite (has_media_false _ Hm). apply log_failure_outcome_of.
Qed.

Lemma calls_log_failure {R : Type} message (run : list event * completion R) :
  calls (log_failure message run) = calls run.1.
Proof.
  unfold log_failure, calls. destruct run.2; [done|].
  by rewrite omap_app, app_nil_r.
Qed.

Lemma forward_single_message_calls tr message fw :
  ∃ n : nat, 1 ≤ n ≤ MAX_RETRIES
    ∧ calls (forward_single_message tr message fw)
      = replicate n (single_call (destination_id (config fw)) message).
Proof.
  rewrite forward_single_message_eq. cbv zeta. rewrite calls_log_failure.
  destruct (retry_operation_call_list
              (single_call (destination_id (config fw)) message)
              (outcome tr (single_call (destination_id (config fw)) message)))
    as (n & Hn & Hcalls).
  eauto.
Qed.

(** X5: A single message is sent as a one-item media group when it has a photo,
    video, document or audio, and copied by reference otherwise, also when
    all it has is an animation.  That one call is awaited one to three times
    and no other call is made. *)
Theorem single_message_route tr message fw :
  let dest := destination_id (config fw) in
  ∃ (n : nat) call,
    1 ≤ n ≤ MAX_RETRIES
    ∧ calls (forward_single_message tr message fw) = replicate n call
    ∧ (get_media_type message = None →
       call = CopyMessage dest (chat_id message) (message_id message))
    ∧ (is_Some (get_media_type message) →
       ∃ im, call = SendMediaGroup dest [im]
             ∧ file_id_of message = Some (media_of im)
             ∧ caption_of im = caption message).
Proof.
  intros dest.
  destruct (forward_single_message_calls tr message fw) as (n & Hn & Hcalls).
  exists n, (single_call dest message).
  split; [done|]. split; [done|]. split.
  - unfold single_call, get_media_input, get_media_type.
    destruct (photo message); [|done].
    by destruct (video message), (document message), (audio message).
  - unfold single_call, get_media_input, file_id_of, get_media_type.
    destruct (photo message) as [|p ps] eqn:Hp.
    + simpl. destruct (video message), (document message), (audio message); simpl;
        intros [? ?]; try done; eauto.
    + destruct (last (p :: ps)) eqn:Hlast; [eauto|by apply last_None in Hlast].
Qed.

(** When the first attempt succeeds, the call is all that happens. *)
Lemma forward_single_message_first_attempt tr message fw :
  let call := single_call (destination_id (config fw)) message in
  outcome tr call 0 = Return tt →
  forward_single_message tr message fw = [Await call (Some 30%Z)].
Proof.
  intros call H0. rewrite forward_single_message_eq. cbv zeta. fold call.
  by rewrite (retry_operation_first _ _ _ H0).
Qed.

(** X6: When the first two attempts fail, a third one is made and then one
    error is logged for the message, whose text is that of the bare
    [raise], not of the transport failures. *)
Theorem forward_single_message_gives_up tr message fw (e0 e1 : exn) :
  let call := single_call (destination_id (config fw)) message in
  outcome tr call 0 = Raise e0 → outcome tr call 1 = Raise e1 →
  calls (forward_single_message tr message fw) = replicate 3 call
  ∧ last (forward_single_message tr message fw)
    = Some (Log ERROR (ErrorForwardingMessage (message_id message)
                         "No active exception to reraise")).
Proof.
  intros call H0 H1. rewrite forward_single_message_eq. cbv zeta. fold call.
  destruct (outcome tr call 2) as [r2|e2] eqn:H2.
  - by rewrite (retry_operation_third _ _ _ _ _ H0 H1 H2).
  - by rewrite (retry_operation_exhausted _ _ _ _ _ H0 H1 H2).
Qed.

End SingleMessages.

Lemma forward_single_message_first_attempt_witness :
  forward_single_message working_transport (sample_text 7 10) (init sample_config)
  = [Await (CopyMessage (Some (-200)%Z) (-100)%Z 7%Z) (Some 30%Z)].
Proof.
  apply (forward_single_message_first_attempt working_transport (sample_text 7 10)
           (init sample_config)).
  reflexivity.
Defined.

Lemma forward_single_message_gives_up_witness :
  last (forward_single_message (failing_transport (TimeoutError EmptyString))
          (sample_text 7 10) (init sample_config))
  = Some (Log ERROR (ErrorForwardingMessage 7%Z "No active exception to reraise")).
Proof.
  apply (forward_single_message_gives_up (failing_transport (TimeoutError EmptyString))
           (sample_text 7 10) (init sample_config)
           (TimeoutError EmptyString) (TimeoutError EmptyString)); reflexivity.
Defined.

(** ** Dispatch: what [forward_message] lets through *)

Section Dispatch.

Implicit Types (tr : Transport) (fw : Forwarder) (update : Update).

Lemma await_in_calls (trace : list event) (call : transport_call) (t : option Z) :
  Await call t ∈ trace → call ∈ calls trace.
Proof. intros Hin. apply list_elem_of_omap. by exists (Await call t). Qed.

Lemma stamp_elem fw (evs : list event) (o : observation) :
  o ∈ stamp fw evs → o.1 = fw ∧ o.2 ∈ evs.
Proof.
  unfold stamp. intros (ev & -> & Hev)%list_elem_of_fmap. done.
Qed.

(** Every call of a flush is the send of its batch to the destination. *)
Lemma process_media_group_calls tr (g : string) fw (o : observation)
    (call : transport_call) (t : option Z) :
  o ∈ (process_media_group tr g fw).1.2 → o.2 = Await call t →
  call = SendMediaGroup (destination_id (config fw))
           (canonical_batch (default [] (media_groups fw !! g)))
  ∧ canonical_batch (default [] (media_groups fw !! g)) ≠ [].
Proof.
  rewrite process_media_group_eq. cbv zeta.
  destruct (canonical_batch _) as [|x xs] eqn:Hb; cbn [fst snd].
  - intros [_ Hin]%stamp_elem Ho. rewrite Ho in Hin.
    unfold flush_warning in Hin. case_bool_decide; set_solver.
  - intros [_ Hin]%stamp_elem Ho. rewrite Ho in Hin. split; [|done].
    apply elem_of_app in Hin as [Hin|Hin].
    { unfold flush_warning in Hin. case_bool_decide; set_solver. }
    apply await_in_calls in Hin.
    destruct (send_loop_bounded g
                (SendMediaGroup (destination_id (config fw)) (x :: xs))
                (length (x :: xs))
                (send_media_group tr (destination_id (config fw)) (x :: xs)))
      as (n & _ & Hcalls & _).
    cbv zeta in Hcalls. rewrite Hcalls in Hin.
    by apply elem_of_replicate in Hin as [-> _].
Qed.

(** A handler run is one of three: nothing is forwarded and the state is
    kept; the message is grouped; the message is forwarded on its own. *)
Lemma forward_message_cases tr update fw :
  let message := effective_message update in
  ((forward_message tr update fw).1.1 = fw
   ∧ (forward_message tr update fw).2 = Return tt
   ∧ ∀ o, o ∈ (forward_message tr update fw).1.2 → is_await o.2 = false)
  ∨ (source_id (config fw) = Some (effective_chat_id update)
     ∧ validate_config (config fw) = Return tt
     ∧ ((∃ g, media_group_id message = Some g ∧ g ≠ EmptyString
              ∧ forward_message tr update fw = handle_group tr g message fw)
        ∨ (truthy_str (media_group_id message) = false
           ∧ forward_message tr update fw
             = (fw, stamp fw (forward_single_message tr message fw), Return tt)))).
Proof.
  intros message. unfold forward_message.
  case_bool_decide as Hsrc; simpl; [|left; set_solver].
  destruct (truthy_int _) eqn:Hdst; simpl.
  2:{ left. repeat split. intros o ->%list_elem_of_singleton. done. }
  destruct (validate_config (config fw)) as [[]|e] eqn:Hval.
  2:{ left. repeat split. intros o ->%list_elem_of_singleton. done. }
  right. split; [done|]. split; [done|]. fold message.
  destruct (truthy_str (media_group_id message)) eqn:Hg; [left|by right].
  destruct (media_group_id message) as [g|]; [|done].
  exists g. split; [done|]. split; [|done]. simpl in Hg. intros ->. done.
Qed.

(** X7: A transport call is made only for an update from the configured source
    chat, under a configuration that passes validation, and it goes to the
    configured destination, which is then a negative identifier other than
    the source. *)
Theorem forward_message_calls_need_valid_config tr update fw (o : observation)
    (call : transport_call) (t : option Z) :
  o ∈ (forward_message tr update fw).1.2 → o.2 = Await call t →
  source_id (config fw) = Some (effective_chat_id update)
  ∧ validate_config (config fw) = Return tt
  ∧ chat_of call = destination_id (config fw)
  ∧ ∃ d, destination_id (config fw) = Some d ∧ (d < 0)%Z
         ∧ d ≠ effective_chat_id update.
Proof.
  intros Hin Ho.
  destruct (forward_message_cases tr update fw) as [(_ & _ & Hnone)|(Hsrc & Hval & Hrun)].
  { specialize (Hnone o Hin). by rewrite Ho in Hnone. }
  split; [done|]. split; [done|]. split.
  - destruct Hrun as [(g & Hg & Hne & Heq)|(Hg & Heq)]; rewrite Heq in Hin.
    + unfold handle_group in Hin. cbv zeta in Hin.
      case_bool_decide.
      * pose proof (process_media_group_calls tr g
                      (cancel_timer g (buffer_message g (effective_message update) fw)))
          as Hcalls.
        pose proof (process_media_group_returns tr g
                      (cancel_timer g (buffer_message g (effective_message update) fw)))
          as Hret.
        destruct (process_media_group _ _ _) as [[fw2 obs] c]. simpl in Hret. subst c.
        cbn [fst snd] in *. apply elem_of_app in Hin as [Hin|Hin].
        -- destruct (Hcalls o call t Hin Ho) as [-> _]. simpl.
           by destruct (cancel_timer_fields g
                          (buffer_message g (effective_message update) fw))
             as (_ & _ & _ & ->).
        -- apply list_elem_of_singleton in Hin. subst o. done.
      * cbn [fst snd] in Hin. apply list_elem_of_singleton in Hin. subst o. done.
    + cbn [fst snd] in Hin. apply stamp_elem in Hin as [_ Hin]. rewrite Ho in Hin.
      apply await_in_calls in Hin.
      destruct (forward_single_message_calls tr (effective_message update) fw)
        as (n & _ & Hcalls).
      rewrite Hcalls in Hin. apply elem_of_replicate in Hin as [-> _].
      unfold single_call. by destruct (get_media_input _).
  - destruct (proj1 (validate_config_returns (config fw)) Hval)
      as (s & d & Hs & Hd & _ & Hneg & Hsd).
    exists d. repeat split; [done..|]. congruence.
Qed.

(** X8: Without a readable configuration file the forwarder starts from the
    default configuration, under which every update is dropped without any
    effect. *)
Theorem unconfigured_forwarder_drops_everything (file : config_file) tr update :
  (∀ c, file ≠ FileHolds c) →
  (load_config file).1 = default_config
  ∧ forward_message tr update (init (load_config file).1)
    = (init default_config, [], Return tt).
Proof.
  intros Hfile. destruct file as [|e|c]; [done..|]. by destruct (Hfile c).
Qed.

Lemma forward_message_ungrouped tr update fw :
  source_id (config fw) = Some (effective_chat_id update) →
  validate_config (config fw) = Return tt →
  truthy_str (media_group_id (effective_message update)) = false →
  forward_message tr update fw
  = (fw, stamp fw (forward_single_message tr (effective_message update) fw), Return tt).
Proof.
  intros Hsrc Hval Hg.
  destruct (proj1 (validate_config_returns (config fw)) Hval)
    as (s & d & Hs & Hd & _ & Hneg & Hsd).
  unfold forward_message. rewrite bool_decide_eq_true_2 by done.
  assert (truthy_int (destination_id (config fw)) = true) as ->.
  { rewrite Hd. simpl. destruct (Z.eqb_spec d 0); [lia|done]. }
  rewrite Hval. simpl. by rewrite Hg.
Qed.

(** X9: A message outside any group, from the source chat and under a valid
    configuration, whose call succeeds at once: the handler makes that one
    call, logs nothing and leaves the state as it was. *)
Theorem ungrouped_message_forwarded_once tr update fw :
  let message := effective_message update in
  let call := single_call (destination_id (config fw)) message in
  source_id (config fw) = Some (effective_chat_id update) →
  validate_config (config fw) = Return tt →
  truthy_str (media_group_id message) = false →
  outcome tr call 0 = Return tt →
  forward_message tr update fw = (fw, [(fw, Await call (Some 30%Z))], Return tt).
Proof.
  intros message call Hsrc Hval Hg H0.
  rewrite forward_message_ungrouped by done. fold message.
  by rewrite (forward_single_message_first_attempt tr message fw).
Qed.

End Dispatch.

Lemma forward_message_calls_need_valid_config_witness :
  let text := {| message_id := 7; chat_id := (-100)%Z; date := 10;
                 media_group_id := None; caption := None; caption_entities := [];
                 photo := []; video := None; document := None; audio := None;
                 animation := None |} in
  let call := CopyMessage (Some (-200)%Z) (-100)%Z 7%Z in
  source_id sample_config = Some (-100)%Z
  ∧ validate_config sample_config = Return tt
  ∧ chat_of call = destination_id sample_config
  ∧ ∃ d, destination_id sample_config = Some d ∧ (d < 0)%Z ∧ d ≠ (-100)%Z.
Proof.
  intros text call.
  apply (forward_message_calls_need_valid_config working_transport
           (update_from (-100) text) (init sample_config)
           (init sample_config, Await call (Some 30%Z)) call (Some 30%Z)).
  - vm_compute. left.
  - reflexivity.
Defined.

Lemma unconfigured_forwarder_drops_everything_witness :
  forward_message working_transport tenth_update (init (load_config FileMissing).1)
  = (init default_config, [], Return tt).
Proof.
  apply (unconfigured_forwarder_drops_everything FileMissing). discriminate.
Defined.

Lemma ungrouped_message_forwarded_once_witness :
  let text := {| message_id := 7; chat_id := (-100)%Z; date := 10;
                 media_group_id := None; caption := None; caption_entities := [];
                 photo := []; video := None; document := None; audio := None;
                 animation := None |} in
  forward_message working_transport (update_from (-100) text) (init sample_config)
  = (init sample_config,
     [(init sample_config, Await (CopyMessage (Some (-200)%Z) (-100)%Z 7%Z) (Some 30%Z))],
     Return tt).
Proof.
  intros text.
  apply (ungrouped_message_forwarded_once working_transport (update_from (-100) text)
           (init sample_config)); reflexivity.
Defined.

(** ** Flush: what [process_media_group] does around the batch *)

Section Flush.

Implicit Types (tr : Transport) (fw : Forwarder) (g : string).

Lemma pop_group_erased_id g fw : erased g fw → (pop_group g fw).2 = fw.
Proof.
  intros (Hmg & Hct & Hsc). destruct fw as [mg ct sc cf jq]. simpl in *.
  unfold pop_group. simpl. f_equal; [by apply delete_id..|set_solver].
Qed.

(** X10: A flush of a group that has just been flushed finds nothing: it
    has no effect at all and returns the state as it is. *)
Theorem repeated_flush_is_noop tr tr' g fw :
  let flushed := (process_media_group tr g fw).1.1 in
  process_media_group tr' g flushed = (flushed, [], Return tt).
Proof.
  intros flushed.
  assert (erased g flushed) as Her.
  { subst flushed. rewrite process_media_group_state. apply pop_group_erased. }
  pose proof (pop_group_erased_id g flushed Her) as Hid.
  destruct Her as (Hmg & _ & _).
  unfold process_media_group.
  destruct (pop_group g flushed) as [messages fw1] eqn:Hpop.
  assert (messages = []) as -> by (injection Hpop as <- _; by rewrite Hmg).
  simpl in Hid. by subst fw1.
Qed.

(** X11: A flush touches the entries of its own group only: the other groups,
    the configuration and the job queue are as before. *)
Theorem process_media_group_frame tr g fw :
  let flushed := (process_media_group tr g fw).1.1 in
  config flushed = config fw
  ∧ job_queue flushed = job_queue fw
  ∧ ∀ g', g' ≠ g →
      media_groups flushed !! g' = media_groups fw !! g'
      ∧ media_group_counts flushed !! g' = media_group_counts fw !! g'
      ∧ (g' ∈ scheduled_media_groups flushed ↔ g' ∈ scheduled_media_groups fw).
Proof.
  intros flushed. subst flushed. rewrite process_media_group_state.
  unfold pop_group. simpl. repeat split; try done.
  - by rewrite lookup_delete_ne.
  - by rewrite lookup_delete_ne.
  - set_solver.
  - set_solver.
Qed.

Lemma canonical_batch_nil (messages : list Message) :
  canonical_batch messages = [] ↔ ∀ msg, msg ∈ messages → get_media_type msg = None.
Proof.
  trans (media_of <$> canonical_batch messages = []).
  { by destruct (canonical_batch messages). }
  rewrite canonical_batch_tokens.
  unfold canonical_messages, unique_messages. split.
  - intros Hnil msg Hin. destruct (get_media_type msg) as [t|] eqn:Ht; [|done].
    destruct (proj2 (file_id_of_media_type msg)) as [fid Hfid]; [by rewrite Ht|].
    assert (fid ∈ omap file_id_of (unique_from ∅ (sort_messages messages))) as Hfid'.
    { apply unique_from_tokens. split; [|set_solver].
      apply list_elem_of_omap. exists msg. split; [|done].
      by rewrite sort_messages_perm. }
    rewrite Hnil in Hfid'. by apply elem_of_nil in Hfid'.
  - intros Hnone.
    destruct (omap file_id_of (unique_from ∅ (sort_messages messages)))
      as [|fid rest] eqn:Hl; [done|].
    assert (fid ∈ omap file_id_of (unique_from ∅ (sort_messages messages))) as Hfid
      by (rewrite Hl; left).
    apply unique_from_tokens in Hfid as [Hfid _].
    apply list_elem_of_omap in Hfid as (msg & Hin & Hmsg).
    rewrite sort_messages_perm in Hin. specialize (Hnone msg Hin).
    destruct (proj1 (file_id_of_media_type msg)) as [t Ht]; [by rewrite Hmsg|].
    congruence.
Qed.

(** X12: A flush sends something exactly when some buffered message of the
    group has a media type; a group of other messages only is dropped
    without a call. *)
Theorem flush_sends_iff_media tr g fw :
  (∃ o, o ∈ (process_media_group tr g fw).1.2 ∧ is_await o.2 = true)
  ↔ ∃ msg, msg ∈ default [] (media_groups fw !! g) ∧ is_Some (get_media_type msg).
Proof.
  split.
  - intros (o & Hin & Ho). destruct o as [st [call t| |]]; try done.
    destruct (process_media_group_calls tr g fw _ call t Hin eq_refl) as [_ Hne].
    destruct (decide (Forall (λ msg, get_media_type msg = None)
                        (default [] (media_groups fw !! g)))) as [Hall|Hex].
    { rewrite Forall_forall in Hall. by apply canonical_batch_nil in Hall. }
    apply not_Forall_Exists in Hex; [|apply _].
    apply Exists_exists in Hex as (msg & Hmsg & Hsome).
    exists msg. split; [done|]. simpl in Hsome.
    destruct (get_media_type msg); [eauto|done].
  - intros (msg & Hin & Hsome).
    assert (canonical_batch (default [] (media_groups fw !! g)) ≠ []) as Hne.
    { rewrite canonical_batch_nil. intros Hall. rewrite (Hall msg Hin) in Hsome.
      by destruct Hsome. }
    rewrite process_media_group_eq. cbv zeta.
    destruct (canonical_batch _) as [|x xs]; [done|]. cbn [fst snd].
    change (seq 0 MAX_RETRIES) with [0; 1; 2].
    destruct (send_loop_head g (SendMediaGroup (destination_id (config fw)) (x :: xs))
                (length (x :: xs))
                (send_media_group tr (destination_id (config fw)) (x :: xs)) 0 [1; 2])
      as [tail ->].
    eexists (_, Await _ None). split; [|done].
    unfold stamp. apply list_elem_of_fmap. eexists. split; [done|].
    apply elem_of_app. right. left.
Qed.

Lemma size_gt_1 (X : gset string) :
  1 < size X ↔ ∃ x y, x ∈ X ∧ y ∈ X ∧ x ≠ y.
Proof.
  split.
  - intros Hsize. destruct (size_pos_elem_of X) as [x Hx]; [lia|].
    assert (size (X ∖ {[x]}) = size X - 1) as Hrest.
    { rewrite size_difference by set_solver. by rewrite size_singleton. }
    destruct (size_pos_elem_of (X ∖ {[x]})) as [y Hy]; [lia|].
    exists x, y. set_solver.
  - intros (x & y & Hx & Hy & Hne).
    assert (size ({[x]} ∪ {[y]} : gset string) = 2) as Htwo.
    { rewrite size_union by set_solver. by rewrite !size_singleton. }
    assert (size ({[x]} ∪ {[y]} : gset string) ≤ size X) as Hle.
    { apply subseteq_size. set_solver. }
    lia.
Qed.

Lemma send_loop_no_warning {R : Type} g (call : transport_call) (items : nat)
    (op : nat → completion R) :
  Forall (λ ev, ∀ r, ev ≠ Log WARNING r)
    (send_loop g call items op (seq 0 MAX_RETRIES)).1.
Proof.
  cbn. destruct (op 0); [by repeat constructor|].
  destruct (op 1); [by repeat constructor|].
  destruct (op 2); by repeat constructor.
Qed.

(** X13: A flush logs the mixed-types warning exactly when two buffered
    messages of the group have different media types. *)
Theorem flush_warns_iff_mixed tr g fw :
  (∃ o, o ∈ (process_media_group tr g fw).1.2
        ∧ ∃ types, o.2 = Log WARNING (MixedMediaTypes g types))
  ↔ ∃ m1 m2 t1 t2,
      m1 ∈ default [] (media_groups fw !! g) ∧ m2 ∈ default [] (media_groups fw !! g)
      ∧ get_media_type m1 = Some t1 ∧ get_media_type m2 = Some t2 ∧ t1 ≠ t2.
Proof.
  set (messages := default [] (media_groups fw !! g)).
  assert (media_types_of (sort_messages messages) = media_types_of messages) as Htypes.
  { unfold media_types_of. by rewrite sort_messages_perm. }
  assert (1 < size (media_types_of messages)
          ↔ ∃ m1 m2 t1 t2, m1 ∈ messages ∧ m2 ∈ messages
              ∧ get_media_type m1 = Some t1 ∧ get_media_type m2 = Some t2 ∧ t1 ≠ t2)
    as Hmixed.
  { rewrite size_gt_1. unfold media_types_of. split.
    - intros (t1 & t2 & H1 & H2 & Hne).
      apply elem_of_list_to_set, list_elem_of_omap in H1 as (m1 & ? & ?).
      apply elem_of_list_to_set, list_elem_of_omap in H2 as (m2 & ? & ?).
      by exists m1, m2, t1, t2.
    - intros (m1 & m2 & t1 & t2 & H1 & H2 & Ht1 & Ht2 & Hne).
      exists t1, t2. repeat split; [..|done];
        apply elem_of_list_to_set, list_elem_of_omap; eauto. }
  rewrite <-Hmixed. clear Hmixed.
  rewrite process_media_group_eq. cbv zeta. fold messages.
  unfold flush_warning. rewrite Htypes.
  split.
  - intros (o & Hin & types & Ho).
    case_bool_decide; [done|]. exfalso.
    destruct (canonical_batch messages) as [|x xs]; cbn [fst snd] in Hin;
      apply stamp_elem in Hin as [_ Hin]; rewrite Ho in Hin.
    + by apply elem_of_nil in Hin.
    + rewrite app_nil_l in Hin.
      pose proof (send_loop_no_warning g
                    (SendMediaGroup (destination_id (config fw)) (x :: xs))
                    (length (x :: xs))
                    (send_media_group tr (destination_id (config fw)) (x :: xs))) as Hno.
      rewrite Forall_forall in Hno. by apply (Hno _ Hin (MixedMediaTypes g types)).
  - intros Hsize. rewrite bool_decide_eq_true_2 by done.
    eexists (_, Log WARNING (MixedMediaTypes g (media_types_of messages))).
    split; [|eauto].
    destruct (canonical_batch messages); cbn [fst snd]; unfold stamp;
      apply list_elem_of_fmap; eexists; (split; [done|]); set_solver.
Qed.

Lemma media_from_elem (gc : option string) (i : nat) (l : list Message) (im : InputMedia) :
  im ∈ media_from gc i l → ∃ msg (j : nat), msg ∈ l ∧ input_media_at gc j msg = Some im.
Proof.
  revert i. induction l as [|m l IH]; intros i; simpl; [by intros ?%elem_of_nil|].
  destruct (input_media_at gc i m) as [im'|] eqn:Him.
  - intros [->|Hin]%elem_of_cons.
    + exists m, i. split; [left|done].
    + destruct (IH _ Hin) as (msg & j & ? & ?). exists msg, j. split; [by right|done].
  - intros Hin. destruct (IH _ Hin) as (msg & j & ? & ?).
    exists msg, j. split; [by right|done].
Qed.

Lemma input_media_at_payload (gc : option string) (j : nat) (msg : Message)
    (im : InputMedia) :
  input_media_at gc j msg = Some im →
  ∃ im', get_media_input msg = Some im' ∧ payload im = payload im'.
Proof.
  unfold input_media_at, get_media_input.
  destruct (photo msg) as [|p ps] eqn:Hp.
  - simpl. destruct (video msg), (document msg), (audio msg); simpl;
      intros [= <-]; eauto.
  - destruct (last (p :: ps)) eqn:Hlast; [|by apply last_None in Hlast].
    intros [= <-]. eauto.
Qed.

Lemma canonical_batch_length_le (messages : list Message) :
  length (canonical_batch messages) ≤ length messages.
Proof.
  rewrite canonical_batch_length, <-(Permutation_length (sort_messages_perm messages)).
  apply sublist_length, unique_from_sublist.
Qed.

(** X15: The batch has no more items than the group has messages, and every
    item is what [get_media_input] builds for one of the buffered messages,
    up to the caption and its entities. *)
Theorem canonical_batch_items (messages : list Message) :
  length (canonical_batch messages) ≤ length messages
  ∧ ∀ im, im ∈ canonical_batch messages →
      ∃ msg im', msg ∈ messages ∧ get_media_input msg = Some im'
                 ∧ payload im = payload im'.
Proof.
  assert (canonical_messages messages ⊆ messages) as Hsub.
  { intros msg Hin. rewrite <-(sort_messages_perm messages).
    by apply (sublist_subseteq _ _ (unique_from_sublist ∅ (sort_messages messages))). }
  split.
  - apply canonical_batch_length_le.
  - intros im Hin. unfold canonical_batch in Hin.
    apply media_from_elem in Hin as (msg & j & Hmsg & Him).
    destruct (input_media_at_payload _ _ _ _ Him) as (im' & ? & ?).
    exists msg, im'. split; [by apply Hsub|done].
Qed.

(** X14: A flush sends to the destination configured when it runs and does
    not check the configuration: what was buffered under one configuration
    is sent under whatever configuration is in place at the flush. *)
Theorem flush_uses_current_destination tr g fw (c : Config) (msg : Message) :
  msg ∈ default [] (media_groups fw !! g) → is_Some (get_media_type msg) →
  ∃ o, o ∈ (process_media_group tr g (set_config c fw)).1.2
       ∧ o.2 = Await (SendMediaGroup (destination_id c)
                        (canonical_batch (default [] (media_groups fw !! g)))) None.
Proof.
  intros Hin Hsome.
  assert (canonical_batch (default [] (media_groups fw !! g)) ≠ []) as Hne.
  { rewrite canonical_batch_nil. intros Hall. rewrite (Hall msg Hin) in Hsome.
    by destruct Hsome. }
  rewrite process_media_group_eq. cbv zeta. cbn [set_config media_groups config].
  destruct (canonical_batch _) as [|x xs]; [done|]. cbn [fst snd].
  change (seq 0 MAX_RETRIES) with [0; 1; 2].
  destruct (send_loop_head g (SendMediaGroup (destination_id c) (x :: xs))
              (length (x :: xs))
              (send_media_group tr (destination_id c) (x :: xs)) 0 [1; 2])
    as [tail ->].
  eexists (_, Await _ None). split; [|done].
  unfold stamp. apply list_elem_of_fmap. eexists. split; [done|].
  apply elem_of_app. right. left.
Qed.

End Flush.

(** ** Aggregation: buffers, timers and sizes *)

Section Aggregation.

Implicit Types (tr : Transport) (fw : Forwarder) (g : string) (message : Message).

(** What a handler leaves in the containers for a grouped message. *)
Lemma handle_group_entries tr g message fw :
  let out := (handle_group tr g message fw).1.1 in
  let full := bool_decide
                (MAX_MEDIA_GROUP_SIZE ≤ default 0 (media_group_counts fw !! g) + 1) in
  config out = config fw
  ∧ media_groups out !! g
    = (if full then None else Some (default [] (media_groups fw !! g) ++ [message]))
  ∧ media_group_counts out !! g
    = (if full then None else Some (default 0 (media_group_counts fw !! g) + 1))
  ∧ (g ∈ scheduled_media_groups out ↔ full = false)
  ∧ (full = false → last (job_queue out) = Some g)
  ∧ ∀ g', g' ≠ g →
      media_groups out !! g' = media_groups fw !! g'
      ∧ media_group_counts out !! g' = media_group_counts fw !! g'
      ∧ (g' ∈ scheduled_media_groups out ↔ g' ∈ scheduled_media_groups fw)
      ∧ (g' ∈ job_queue out ↔ g' ∈ job_queue fw).
Proof.
  intros out full. subst out. rewrite handle_group_state. cbv zeta. fold full.
  destruct (cancel_timer_fields g (buffer_message g message fw))
    as (Hmg & Hct & Hsc & Hcf).
  assert (∀ x, x ≠ g →
            x ∈ job_queue (cancel_timer g (buffer_message g message fw))
            ↔ x ∈ job_queue fw) as Hjobs.
  { intros x Hne. unfold cancel_timer. case_bool_decide; simpl; [|done].
    rewrite list_elem_of_filter. tauto. }
  destruct full.
  - unfold pop_group. cbn [snd media_groups media_group_counts scheduled_media_groups
                           config job_queue].
    rewrite Hmg, Hct, Hsc, Hcf. simpl. rewrite !lookup_delete_eq.
    split_and!; [done..|set_solver|done|].
    intros x Hne. rewrite !lookup_delete_ne, !lookup_insert_ne by done.
    split_and!; [done..|set_solver|by apply Hjobs].
  - unfold reset_timer. cbn [media_groups media_group_counts scheduled_media_groups
                             config job_queue].
    rewrite Hmg, Hct, Hsc, Hcf. simpl. rewrite !lookup_insert_eq.
    split_and!; [done..|set_solver|intros _; apply last_snoc|].
    intros x Hne. rewrite !lookup_insert_ne by done.
    split_and!; [done..|set_solver|].
    rewrite elem_of_app, list_elem_of_singleton, Hjobs by done. tauto.
Qed.


Lemma reachable_bounded fw :
  reachable fw →
  buffers_consistent fw
  ∧ ∀ g (messages : list Message), media_groups fw !! g = Some messages →
      length messages < MAX_MEDIA_GROUP_SIZE.
Proof.
  intros [c Hsteps].
  eapply (rtc_invariant any_step
            (λ fw, buffers_consistent fw
                   ∧ ∀ g (messages : list Message),
                       media_groups fw !! g = Some messages →
                       length messages < MAX_MEDIA_GROUP_SIZE));
    [|exact Hsteps|].
  2:{ split; [apply init_consistent|]. intros g messages. simpl.
      by rewrite lookup_empty. }
  clear. intros a b Hstep [Hc Hb]. split; [by eapply step_buffers|].
  assert (∀ tr g0 st, (∀ g (messages : list Message),
                         media_groups st !! g = Some messages →
                         length messages < MAX_MEDIA_GROUP_SIZE) →
            ∀ g (messages : list Message),
              media_groups (process_media_group tr g0 st).1.1 !! g = Some messages →
              length messages < MAX_MEDIA_GROUP_SIZE) as Hflush.
  { intros tr g0 st Hst g messages. rewrite process_media_group_state.
    destruct (decide (g = g0)) as [->|Hne].
    - by destruct (pop_group_erased g0 st) as (-> & _).
    - unfold pop_group. simpl. rewrite lookup_delete_ne by done. apply Hst. }
  destruct Hstep as [Hstep|Hlate].
  - destruct Hstep as [tr update fw|tr g0 before after fw Hq|c fw]; [| |done].
    + destruct (forward_message_cases tr update fw)
        as [(-> & _)|(_ & _ & [(g0 & _ & _ & ->)|(_ & ->)])]; [done| |done].
      destruct (handle_group_entries tr g0 (effective_message update) fw)
        as (_ & Hmg & _ & _ & _ & Hother).
      intros g messages. destruct (decide (g = g0)) as [->|Hne].
      * rewrite Hmg. case_bool_decide as Hfull; [done|]. intros [= <-].
        rewrite (consistent_count _ _ Hc) in Hfull.
        rewrite length_app. simpl. lia.
      * destruct (Hother g Hne) as (-> & _). apply Hb.
    + by apply Hflush.
  - destruct Hlate as [tr g0 fw]. by apply Hflush.
Qed.

(** X17: Between callbacks every buffered group holds at least one message and
    fewer than the maximum, and its count is the length of its buffer. *)
Theorem buffered_groups_bounded fw :
  reachable fw →
  ∀ g (messages : list Message), media_groups fw !! g = Some messages →
    1 ≤ length messages < MAX_MEDIA_GROUP_SIZE
    ∧ media_group_counts fw !! g = Some (length messages).
Proof.
  intros Hreach. destruct (reachable_bounded _ Hreach) as [Hc Hb].
  intros g messages Hg. split; [split; [|by eapply Hb]|].
  - destruct messages; [by destruct (buffer_nonempty _ Hc g)|simpl; lia].
  - by rewrite (buffer_counted _ Hc), Hg.
Qed.

(** X18: From a state reached by callbacks, no media group is sent with more
    than [MAX_MEDIA_GROUP_SIZE] items, by a handler or by a flush, and none
    is sent empty. *)
Theorem media_groups_sent_within_limit fw :
  reachable fw →
  (∀ tr (update : Update) (o : observation) chat media t,
     o ∈ (forward_message tr update fw).1.2 → o.2 = Await (SendMediaGroup chat media) t →
     1 ≤ length media ≤ MAX_MEDIA_GROUP_SIZE)
  ∧ (∀ tr g (o : observation) chat media t,
       o ∈ (process_media_group tr g fw).1.2 → o.2 = Await (SendMediaGroup chat media) t →
       1 ≤ length media < MAX_MEDIA_GROUP_SIZE).
Proof.
  intros Hreach.
  destruct (reachable_bounded _ Hreach) as [Hc Hb].
  assert (∀ g, length (default [] (media_groups fw !! g)) < MAX_MEDIA_GROUP_SIZE) as Hlen.
  { intros g. destruct (media_groups fw !! g) as [l|] eqn:Hl; simpl.
    - by apply (Hb g l Hl).
    - unfold MAX_MEDIA_GROUP_SIZE. lia. }
  assert (∀ l : list InputMedia, l ≠ [] → 1 ≤ length l) as Hpos.
  { intros [|??] ?; [done|simpl; lia]. }
  split.
  - intros tr update o chat media t Hin Ho.
    destruct (forward_message_cases tr update fw)
      as [(_ & _ & Hnone)|(_ & _ & [(g & _ & _ & Heq)|(_ & Heq)])].
    + specialize (Hnone o Hin). by rewrite Ho in Hnone.
    + rewrite Heq in Hin. unfold handle_group in Hin. cbv zeta in Hin.
      set (fw1 := cancel_timer g (buffer_message g (effective_message update) fw)) in *.
      case_bool_decide.
      2:{ cbn [fst snd] in Hin. apply list_elem_of_singleton in Hin. by subst o. }
      pose proof (process_media_group_calls tr g fw1) as Hcalls.
      pose proof (process_media_group_returns tr g fw1) as Hret.
      destruct (process_media_group tr g fw1) as [[fw2 obs] c]. simpl in Hret. subst c.
      cbn [fst snd] in *. apply elem_of_app in Hin as [Hin|Hin].
      2:{ apply list_elem_of_singleton in Hin. by subst o. }
      destruct (Hcalls o _ t Hin Ho) as [[= _ ->] Hne].
      split; [by apply Hpos|].
      etrans; [apply canonical_batch_length_le|].
      subst fw1.
      destruct (cancel_timer_fields g (buffer_message g (effective_message update) fw))
        as (-> & _).
      simpl. rewrite lookup_insert_eq. simpl. rewrite length_app. simpl.
      specialize (Hlen g). lia.
    + rewrite Heq in Hin. cbn [fst snd] in Hin.
      apply stamp_elem in Hin as [_ Hin]. rewrite Ho in Hin.
      apply await_in_calls in Hin.
      destruct (forward_single_message_calls tr (effective_message update) fw)
        as (n & _ & Hcalls).
      rewrite Hcalls in Hin. apply elem_of_replicate_inv in Hin.
      unfold single_call in Hin.
      destruct (get_media_input _); [|done]. injection Hin as _ ->.
      unfold MAX_MEDIA_GROUP_SIZE. simpl. lia.
  - intros tr g o chat media t Hin Ho.
    destruct (process_media_group_calls tr g fw o _ t Hin Ho) as [[= _ ->] Hne].
    split; [by apply Hpos|].
    eapply Nat.le_lt_trans; [apply canonical_batch_length_le|apply Hlen].
Qed.

(** X19: As long as flushes come from handlers and queued jobs, the job queue
    holds exactly one job for every buffered group and nothing else. *)
Theorem one_timer_per_buffered_group fw :
  reachable_by_queue fw →
  NoDup (job_queue fw)
  ∧ ∀ g, g ∈ job_queue fw ↔ g ∈ dom (media_groups fw).
Proof.
  intros Hreach. pose proof (reachable_by_queue_consistent _ Hreach) as Hc.
  split; [apply Hc|]. intros g.
  rewrite (jobs_scheduled _ Hc), (buffer_scheduled _ (consistent_buffers _ Hc)). done.
Qed.

Lemma forward_messages_cons tr (update : Update) (updates : list Update) fw :
  forward_messages tr (update :: updates) fw =
    let out := forward_message tr update fw in
    let rest := forward_messages tr updates out.1.1 in
    (rest.1, out.1.2 ++ rest.2).
Proof.
  unfold forward_messages. simpl.
  generalize (forward_message tr update fw).1.1 as st.
  generalize (forward_message tr update fw).1.2 as pre.
  induction updates as [|u us IH]; intros pre st; simpl.
  { by rewrite app_nil_r. }
  rewrite IH, (IH (forward_message tr u st).1.2). simpl. by rewrite app_assoc.
Qed.

(** Below the maximum a grouped message is only buffered: the handler logs
    and makes no call. *)
Lemma handle_group_buffering tr g message fw :
  default 0 (media_group_counts fw !! g) + 1 < MAX_MEDIA_GROUP_SIZE →
  ∃ st, (handle_group tr g message fw).1.2
        = [(st, Log INFO (TimerReset g (default 0 (media_group_counts fw !! g) + 1)))].
Proof.
  intros Hlt. unfold handle_group. cbv zeta. rewrite buffered_count.
  rewrite bool_decide_eq_false_2 by lia. eauto.
Qed.

(** X20: Messages of one group that arrive while the group stays below the
    maximum are appended to its buffer in arrival order; their handlers
    make no transport call and leave the group's timer last in the queue;
    the flush that follows sends the batch of the whole buffer. *)
Theorem grouped_messages_accumulate tr (messages : list Message) fw g (chat : Z) :
  let earlier := default [] (media_groups fw !! g) in
  let out := forward_messages tr (update_from chat <$> messages) fw in
  source_id (config fw) = Some chat →
  validate_config (config fw) = Return tt →
  g ≠ EmptyString → Forall (λ m, media_group_id m = Some g) messages →
  messages ≠ [] →
  default 0 (media_group_counts fw !! g) = length earlier →
  length earlier + length messages < MAX_MEDIA_GROUP_SIZE →
  media_groups out.1 !! g = Some (earlier ++ messages)
  ∧ media_group_counts out.1 !! g = Some (length earlier + length messages)
  ∧ g ∈ scheduled_media_groups out.1
  ∧ last (job_queue out.1) = Some g
  ∧ Forall (λ o : observation, is_await o.2 = false) out.2
  ∧ ∀ tr' (o : observation) call t,
      o ∈ (process_media_group tr' g out.1).1.2 → o.2 = Await call t →
      call = SendMediaGroup (destination_id (config fw))
               (canonical_batch (earlier ++ messages)).
Proof.
  intros earlier out Hsrc Hval Hg Hall Hne Hcount Hlen.
  assert (config out.1 = config fw
          ∧ media_groups out.1 !! g = Some (earlier ++ messages)
          ∧ media_group_counts out.1 !! g = Some (length earlier + length messages)
          ∧ g ∈ scheduled_media_groups out.1
          ∧ last (job_queue out.1) = Some g
          ∧ Forall (λ o : observation, is_await o.2 = false) out.2)
    as (Hcf & Hmg & Hct & Hsc & Hjq & Htrace).
  { subst out earlier. revert fw Hsrc Hval Hne Hcount Hlen.
    induction Hall as [|m ms Hm _ IH]; intros fw Hsrc Hval Hne Hcount Hlen; [done|].
    rewrite fmap_cons, forward_messages_cons. cbv zeta.
    assert (truthy_int (destination_id (config fw)) = true) as Hdst.
    { destruct (proj1 (validate_config_returns (config fw)) Hval)
        as (s & d & _ & -> & _ & Hneg & _). simpl.
      destruct (Z.eqb_spec d 0); [lia|done]. }
    rewrite (forward_message_grouped tr (update_from chat m) fw g) by done.
    cbn [effective_message update_from].
    destruct (handle_group_entries tr g m fw) as (Hcf1 & Hmg1 & Hct1 & Hsc1 & Hjq1 & _).
    cbv zeta in Hmg1, Hct1, Hsc1, Hjq1.
    simpl in Hlen.
    rewrite bool_decide_eq_false_2 in Hmg1, Hct1, Hsc1, Hjq1 by lia.
    destruct (handle_group_buffering tr g m fw) as [st Htr]; [lia|].
    set (fw1 := (handle_group tr g m fw).1.1) in *.
    rewrite Htr. cbn [fst snd].
    destruct ms as [|m' ms'].
    - simpl. rewrite Hmg1, Hct1, Hcount.
      split_and!; [done..|by apply Hsc1|by apply Hjq1|]. by repeat constructor.
    - destruct (IH fw1) as (Hcf2 & Hmg2 & Hct2 & Hsc2 & Hjq2 & Htr2); [congruence..|done| | |].
      + rewrite Hmg1, Hct1, Hcount. simpl. rewrite length_app. simpl. lia.
      + rewrite Hmg1. simpl. rewrite length_app. simpl in *. lia.
      + rewrite Hmg1 in Hmg2, Hct2. cbn [from_option id] in Hmg2, Hct2.
        rewrite <-app_assoc in Hmg2. rewrite length_app in Hct2.
        split_and!; [congruence|done| |done..|].
        * rewrite Hct2. f_equal. simpl. lia.
        * constructor; [done|apply Htr2]. }
  split_and!; [done..|].
  intros tr' o call t Hin Ho.
  destruct (process_media_group_calls tr' g out.1 o call t Hin Ho) as [-> _].
  by rewrite Hcf, Hmg.
Qed.

End Aggregation.

Lemma buffered_groups_bounded_witness :
  let fw := (forward_message working_transport tenth_update (init sample_config)).1.1 in
  1 ≤ length [effective_message tenth_update] < MAX_MEDIA_GROUP_SIZE
  ∧ media_group_counts fw !! "album" = Some 1.
Proof.
  intros fw.
  apply (buffered_groups_bounded fw).
  - exists sample_config. apply rtc_once. left. apply step_message.
  - reflexivity.
Defined.

Lemma media_groups_sent_within_limit_witness :
  let batch := [InputMediaPhoto "A" (Some "last") (Some []);
                InputMediaPhoto "B" None None] in
  1 ≤ length batch < MAX_MEDIA_GROUP_SIZE.
Proof.
  intros batch.
  destruct (media_groups_sent_within_limit
              (forward_messages working_transport
                 (update_from (-100)
                    <$> [sample_photo 1 10 "A" (Some "last") [];
                         sample_photo 2 11 "B" None []])
                 (init sample_config)).1) as [_ Hflush].
  - exists sample_config.
    eapply rtc_l; [left; apply (step_message working_transport)|].
    apply rtc_once. left. apply (step_message working_transport).
  - apply (Hflush working_transport "album"
             ((process_media_group working_transport "album"
                 (forward_messages working_transport
                    (update_from (-100)
                       <$> [sample_photo 1 10 "A" (Some "last") [];
                            sample_photo 2 11 "B" None []])
                    (init sample_config)).1).1.1,
              Await (SendMediaGroup (Some (-200)%Z) batch) None)
             (Some (-200)%Z) batch None); [|reflexivity].
    vm_compute. left.
Defined.

Lemma one_timer_per_buffered_group_witness :
  let fw := (forward_message working_transport tenth_update (init sample_config)).1.1 in
  NoDup (job_queue fw) ∧ ∀ g, g ∈ job_queue fw ↔ g ∈ dom (media_groups fw).
Proof.
  intros fw. apply (one_timer_per_buffered_group fw).
  exists sample_config. apply rtc_once, step_message.
Defined.

Lemma grouped_messages_accumulate_witness :
  let messages := [sample_photo 2 11 "B" None []; sample_photo 1 10 "A" None []] in
  let out := forward_messages working_transport (update_from (-100) <$> messages)
               (init sample_config) in
  media_groups out.1 !! "album" = Some messages
  ∧ Forall (λ o : observation, is_await o.2 = false) out.2.
Proof.
  intros messages out.
  destruct (grouped_messages_accumulate working_transport messages
              (init sample_config) "album" (-100)%Z)
    as (Hmg & _ & _ & _ & Htrace & _);
    [reflexivity|reflexivity|done|by repeat constructor|done|reflexivity
    |vm_compute; lia|].
  split; [exact Hmg|exact Htrace].
Defined.

(** ** Administrative commands *)

Section Commands.

Implicit Types (env : Environment) (user : Z) (args : list string) (c : Config).

(** X21: Only the owner changes or saves the configuration, and only with an
    argument that [int] accepts; [show_config] tells the identifiers to the
    owner only.  [set_source] never touches the destination and
    [set_destination] never touches the source. *)
Theorem commands_need_owner env user args c :
  (∀ out, out = set_source env user args c ∨ out = set_destination env user args c →
     out.1.1 ≠ c ∨ (∃ saved, SaveConfig saved ∈ out.1.2) →
     user = OWNER_ID env ∧ ∃ arg rest id, args = arg :: rest ∧ int env arg = Some id)
  ∧ ((∃ s d, ReplyText (ConfigText s d) ∈ show_config env user c) → user = OWNER_ID env)
  ∧ destination_id (set_source env user args c).1.1 = destination_id c
  ∧ source_id (set_destination env user args c).1.1 = source_id c.
Proof.
  split_and!.
  - intros out Hout Hchanged.
    assert (∀ assigned confirmation,
              (assign_and_save env assigned confirmation).1.1 = assigned) as Hassign.
    { intros. unfold assign_and_save.
      destruct (save_config env assigned); [done|]. by destruct (is_ValueError e). }
    unfold set_source, set_destination in Hout.
    case_bool_decide as Howner; simpl in Hout.
    2:{ destruct Hout as [-> | ->], Hchanged as [?|[? Hin]]; try done;
          apply list_elem_of_singleton in Hin; done. }
    split; [done|]. destruct args as [|arg rest].
    { destruct Hout as [-> | ->], Hchanged as [?|[? Hin]]; try done;
        apply list_elem_of_singleton in Hin; done. }
    destruct (int env arg) as [id|] eqn:Hint; [eauto|].
    destruct Hout as [-> | ->], Hchanged as [?|[? Hin]]; try done;
      apply list_elem_of_singleton in Hin; done.
  - unfold show_config. case_bool_decide; simpl; [done|].
    intros (s & d & Hin). apply list_elem_of_singleton in Hin. done.
  - unfold set_source. case_bool_decide; simpl; [|done].
    destruct args as [|arg rest]; [done|]. destruct (int env arg); [|done].
    unfold assign_and_save. destruct (save_config env _); [done|].
    by destruct (is_ValueError e).
  - unfold set_destination. case_bool_decide; simpl; [|done].
    destruct args as [|arg rest]; [done|]. destruct (int env arg); [|done].
    unfold assign_and_save. destruct (save_config env _); [done|].
    by destruct (is_ValueError e).
Qed.

(** X22: [set_source] stores whatever integer it is given, without validating
    it.  After a source that is not negative, or that equals the
    destination, no update leads to a transport call. *)
Theorem set_source_does_not_validate env (arg : string) (rest : list string) c (id : Z) :
  let assigned := {| source_id := Some id; destination_id := destination_id c |} in
  int env arg = Some id → save_config env assigned = Return tt →
  set_source env (OWNER_ID env) (arg :: rest) c
  = (assigned, [SaveConfig assigned; ReplyText (SourceIdSet id)], Return tt)
  ∧ ((0 ≤ id)%Z ∨ destination_id c = Some id →
     ∀ (tr : Transport) (update : Update) (fw : Forwarder), config fw = assigned →
       Forall (λ o : observation, is_await o.2 = false) (forward_message tr update fw).1.2).
Proof.
  intros assigned Hint Hsave. split.
  - unfold set_source. rewrite bool_decide_eq_true_2 by done. simpl.
    rewrite Hint. unfold assign_and_save. fold assigned. by rewrite Hsave.
  - intros Hbad tr update fw Hcf. apply Forall_forall. intros o Hin.
    destruct (forward_message_cases tr update fw) as [(_ & _ & Hnone)|(_ & Hval & _)].
    { by apply Hnone. }
    exfalso. rewrite Hcf in Hval.
    destruct (proj1 (validate_config_returns assigned) Hval)
      as (s & d & [= <-] & Hd & Hs & _ & Hsd).
    simpl in Hd. destruct Hbad as [?|Heq]; [lia|]. congruence.
Qed.

(** X23: After the owner has set a negative source and a different negative
    destination, in either order, the configuration passes validation and
    a message from the source chat outside any group is forwarded to the
    destination by one call when that call succeeds at once. *)
Theorem configured_then_forwarded env (a1 a2 : string) c (s d : Z) :
  let c1 := (set_source env (OWNER_ID env) [a1] c).1.1 in
  let c2 := (set_destination env (OWNER_ID env) [a2] c1).1.1 in
  let c1' := (set_destination env (OWNER_ID env) [a2] c).1.1 in
  let c2' := (set_source env (OWNER_ID env) [a1] c1').1.1 in
  int env a1 = Some s → int env a2 = Some d →
  (s < 0)%Z → (d < 0)%Z → s ≠ d →
  c2 = {| source_id := Some s; destination_id := Some d |}
  ∧ c2' = c2
  ∧ validate_config c2 = Return tt
  ∧ ∀ (tr : Transport) (message : Message) (fw : Forwarder),
      config fw = c2 → truthy_str (media_group_id message) = false →
      outcome tr (single_call (Some d) message) 0 = Return tt →
      forward_message tr (update_from s message) fw
      = (fw, [(fw, Await (single_call (Some d) message) (Some 30%Z))], Return tt).
Proof.
  intros c1 c2 c1' c2' H1 H2 Hs Hd Hsd.
  assert (∀ assigned confirmation,
            (assign_and_save env assigned confirmation).1.1 = assigned) as Hassign.
  { intros. unfold assign_and_save.
    destruct (save_config env assigned); [done|]. by destruct (is_ValueError e). }
  assert (c2 = {| source_id := Some s; destination_id := Some d |}) as Hc2.
  { subst c2 c1. unfold set_source, set_destination.
    rewrite !bool_decide_eq_true_2 by done. simpl. rewrite H1, H2.
    by rewrite !Hassign. }
  assert (c2' = {| source_id := Some s; destination_id := Some d |}) as Hc2'.
  { subst c2' c1'. unfold set_source, set_destination.
    rewrite !bool_decide_eq_true_2 by done. simpl. rewrite H1, H2.
    by rewrite !Hassign. }
  assert (validate_config c2 = Return tt) as Hval.
  { rewrite Hc2. apply validate_config_returns. exists s, d. done. }
  split_and!; [done|congruence|done|].
  intros tr message fw Hcf Hg H0.
  rewrite Hc2 in Hcf, Hval.
  rewrite forward_message_ungrouped by (rewrite ?Hcf; done).
  cbn [effective_message update_from].
  rewrite (forward_single_message_first_attempt tr message fw) by (by rewrite Hcf).
  by rewrite Hcf.
Qed.

End Commands.

Lemma commands_need_owner_witness :
  42%Z = OWNER_ID sample_env
  ∧ destination_id (set_source sample_env 42 ["-100"] default_config).1.1 = None.
Proof.
  destruct (commands_need_owner sample_env 42 ["-100"] default_config)
    as (Howner & _ & Hdest & _).
  split; [|exact Hdest].
  apply (Howner (set_source sample_env 42 ["-100"] default_config)); [by left|].
  left. discriminate.
Defined.

Lemma set_source_does_not_validate_witness :
  set_source sample_env 42 ["5"] sample_config
  = ({| source_id := Some 5%Z; destination_id := Some (-200)%Z |},
     [SaveConfig {| source_id := Some 5%Z; destination_id := Some (-200)%Z |};
      ReplyText (SourceIdSet 5)], Return tt)
  ∧ Forall (λ o : observation, is_await o.2 = false)
      (forward_message working_transport (update_from 5 (sample_text 7 10))
         (init {| source_id := Some 5%Z; destination_id := Some (-200)%Z |})).1.2.
Proof.
  destruct (set_source_does_not_validate sample_env "5" [] sample_config 5%Z
              eq_refl eq_refl) as [Hset Hdrop].
  split; [exact Hset|].
  apply Hdrop; [left; lia|reflexivity].
Defined.

Lemma configured_then_forwarded_witness :
  let c1 := (set_source sample_env 42 ["-100"] default_config).1.1 in
  let c2 := (set_destination sample_env 42 ["-200"] c1).1.1 in
  c2 = sample_config ∧ validate_config c2 = Return tt.
Proof.
  intros c1 c2.
  destruct (configured_then_forwarded sample_env "-100" "-200" default_config
              (-100)%Z (-200)%Z eq_refl eq_refl) as (Hc2 & _ & Hval & _);
    [lia|lia|discriminate|].
  split; [exact Hc2|exact Hval].
Defined.

Lemma flush_uses_current_destination_witness :
  ∃ o, o ∈ (process_media_group working_transport "album"
              (set_config {| source_id := Some (-100)%Z; destination_id := None |}
                 (sample_forwarder [sample_photo 1 10 "A" None []]))).1.2
       ∧ o.2 = Await (SendMediaGroup None [InputMediaPhoto "A" None None]) None.
Proof.
  apply (flush_uses_current_destination working_transport "album"
           (sample_forwarder [sample_photo 1 10 "A" None []])
           {| source_id := Some (-100)%Z; destination_id := None |}
           (sample_photo 1 10 "A" None [])).
  - vm_compute. left.
  - by eexists.
Defined.
